(** * scrape_atp_tournaments.py: a shallow embedding and its properties

    The development follows scripts/scrape_atp_tournaments.py function by
    function.  Python [str] values are lists of characters; a character is a
    code point below 256 (the type [ascii]), so the character classes below
    are Python's Unicode classes cut down to that range.  Regular expressions
    are run by a backtracking matcher with the priorities of Python's [re]
    (leftmost alternative first, greedy or lazy repetition, numbered groups).
    The network, the HTML parser and the JSON decoder are inputs of the
    model: a request oracle, the texts and anchors of the selected elements,
    and a decoded JSON value.  Requests, sleeps and written files are
    recorded in a trace; the progress and warning lines that the program
    prints are left out. *)

From Stdlib Require Import Ascii String QArith DecimalString.
From stdpp Require Import gmap strings list fin_maps.

#[local] Open Scope nat_scope.

(** ** Characters and strings *)

Abbreviation str := (list ascii).

(** String literals of the source are written as Rocq strings. *)
Coercion list_ascii_of_string : string >-> list.

Definition code (c : ascii) : nat := nat_of_ascii c.

Definition in_range (lo hi : nat) (c : ascii) : bool :=
  (lo <=? code c) && (code c <=? hi).

(** [\s] of [re] on [str] patterns, and the characters [str.strip()] and
    [str.split()] treat as blank: Python's Unicode whitespace, below 256. *)
Definition is_space (c : ascii) : bool :=
  in_range 9 13 c || in_range 28 32 c || (code c =? 133) || (code c =? 160).

(** [\d]: the decimal digits (category Nd); below 256 these are 0-9. *)
Definition is_digit (c : ascii) : bool := in_range 48 57 c.

(** [str.isdigit()]: also true of the superscripts 2, 3 and 1. *)
Definition isdigit (c : ascii) : bool :=
  is_digit c || (code c =? 178) || (code c =? 179) || (code c =? 185).

Definition is_AZ (c : ascii) : bool := in_range 65 90 c.
Definition is_az (c : ascii) : bool := in_range 97 122 c.
Definition is_alpha (c : ascii) : bool := is_AZ c || is_az c.

(** Upper-case and lower-case letters of Latin-1 that have their case
    partner below 256. *)
Definition is_upper (c : ascii) : bool :=
  is_AZ c || (in_range 192 222 c && negb (code c =? 215)).
Definition is_lower_paired (c : ascii) : bool :=
  is_az c || (in_range 224 254 c && negb (code c =? 247)).

(** [str.lower()] on one character. *)
Definition lower_char (c : ascii) : ascii :=
  if is_upper c then ascii_of_nat (code c + 32) else c.

(** [str.upper()] on one character.  The upper-case forms of U+00B5, U+00DF
    and U+00FF are not below 256; those three are left as they are. *)
Definition upper_char (c : ascii) : ascii :=
  if is_lower_paired c then ascii_of_nat (code c - 32) else c.

Definition lower (s : str) : str := map lower_char s.

(** Cased characters below 256, as [str.title()] sees them. *)
Definition is_cased (c : ascii) : bool :=
  is_upper c || is_lower_paired c
  || (code c =? 170) || (code c =? 181) || (code c =? 186)
  || (code c =? 223) || (code c =? 255).

(** [str.title()]: a cased character after an uncased one is upper-cased,
    a character after a cased one is lower-cased. *)
Fixpoint title_from (prev_cased : bool) (s : str) : str :=
  match s with
  | [] => []
  | c :: s' =>
      (if prev_cased then lower_char c else upper_char c)
        :: title_from (is_cased c) s'
  end.

Definition title (s : str) : str := title_from false s.

(** [s.startswith(p)] *)
Fixpoint startswith (p s : str) : bool :=
  match p, s with
  | [], _ => true
  | a :: p', b :: s' => bool_decide (a = b) && startswith p' s'
  | _ :: _, [] => false
  end.

(** [c in s] for a one-character string [c]. *)
Definition contains_char (c : ascii) (s : str) : bool :=
  existsb (fun x => bool_decide (x = c)) s.

(** [s.strip()] *)
Fixpoint lstrip (s : str) : str :=
  match s with
  | c :: s' => if is_space c then lstrip s' else s
  | [] => []
  end.

Definition rstrip (s : str) : str := rev (lstrip (rev s)).
Definition strip (s : str) : str := rstrip (lstrip s).

(** [s.split()]: the maximal runs of non-blank characters. *)
Fixpoint split_ws_from (cur : str) (s : str) : list str :=
  match s with
  | [] => if bool_decide (cur = []) then [] else [rev cur]
  | c :: s' =>
      if is_space c
      then (if bool_decide (cur = []) then split_ws_from [] s'
            else rev cur :: split_ws_from [] s')
      else split_ws_from (c :: cur) s'
  end.

Definition split_ws (s : str) : list str := split_ws_from [] s.

(** [s.split(sep, 1)] for a one-character separator: one part when the
    separator is absent, otherwise the text before its first occurrence and
    the text after it. *)
Fixpoint split1 (sep : ascii) (s : str) : list str :=
  match s with
  | [] => [[]]
  | c :: s' =>
      if bool_decide (c = sep) then [[]; s']
      else match split1 sep s' with
           | p :: ps => (c :: p) :: ps
           | [] => [[c]]
           end
  end.

(** [s.replace(old, "", 1)]: the first occurrence of [old] is removed. *)
Fixpoint remove_first (old s : str) : str :=
  if startswith old s then drop (length old) s
  else match s with
       | [] => []
       | c :: s' => c :: remove_first old s'
       end.

(** ** Regular expressions *)

Inductive regex : Type :=
| Eps
| Chr (p : ascii -> bool)
| Seq (r1 r2 : regex)
| Alt (r1 r2 : regex)
| Rep (greedy : bool) (lo : nat) (hi : option nat) (r : regex)
| Grp (n : nat) (r : regex).

(** Groups that took part in a match, with the text they captured. *)
Abbreviation caps := (gmap nat str).

(** A successful match: the captures and the input left after the match. *)
Abbreviation outcome := (option (gmap nat str * str)).

Definition below (hi : option nat) (cnt : nat) : bool :=
  match hi with
  | Some h => cnt <? h
  | None => true
  end.

Definition or_else (a b : outcome) : outcome :=
  match a with
  | Some x => Some x
  | None => b
  end.

(** The repetition loop.  A greedy loop tries one more round of the body
    before it tries to leave; a lazy loop tries to leave first.  A round
    that consumes nothing is refused, so at most [length s] rounds run and
    the fuel [length s] given by [run] is enough (lemma [rep_loop_fuel]). *)
Fixpoint rep_loop (body : str -> caps -> (str -> caps -> outcome) -> outcome)
    (greedy : bool) (lo : nat) (hi : option nat) (k : str -> caps -> outcome)
    (fuel cnt : nat) (s : str) (g : caps) : outcome :=
  let stop := if lo <=? cnt then k s g else None in
  match fuel with
  | 0 => stop
  | S fuel' =>
      let more :=
        if below hi cnt
        then body s g (fun s' g' =>
               if length s' <? length s
               then rep_loop body greedy lo hi k fuel' (S cnt) s' g'
               else None)
        else None in
      if greedy then or_else more stop else or_else stop more
  end.

(** [run r s g k]: match [r] at the head of [s], then continue with [k];
    the first success in priority order is the result. *)
Fixpoint run (r : regex) (s : str) (g : caps) (k : str -> caps -> outcome)
  : outcome :=
  match r with
  | Eps => k s g
  | Chr p =>
      match s with
      | c :: s' => if p c then k s' g else None
      | [] => None
      end
  | Seq r1 r2 => run r1 s g (fun s' g' => run r2 s' g' k)
  | Alt r1 r2 => or_else (run r1 s g k) (run r2 s g k)
  | Rep greedy lo hi r' => rep_loop (run r') greedy lo hi k (length s) 0 s g
  | Grp n r' =>
      run r' s g (fun s' g' => k s' (<[n := take (length s - length s') s]> g'))
  end.

(** A match object: the whole match (group 0), the numbered groups and the
    input after the match. *)
Record match_obj : Type := MatchObj {
  m_text : str;
  m_caps : gmap nat str;
  m_rest : str
}.

(** [re.match(r, s)]: a match at the start of [s]. *)
Definition re_match (r : regex) (s : str) : option match_obj :=
  match run r s ∅ (fun s' g' => Some (g', s')) with
  | Some (g, s') => Some (MatchObj (take (length s - length s') s) g s')
  | None => None
  end.

(** [re.search(r, s)]: the match at the leftmost position that has one. *)
Fixpoint re_search (r : regex) (s : str) : option match_obj :=
  match re_match r s with
  | Some m => Some m
  | None =>
      match s with
      | [] => None
      | _ :: s' => re_search r s'
      end
  end.

(** [m.group(n)] for a group that took part in the match. *)
Definition group (m : match_obj) (n : nat) : str :=
  match n with
  | 0 => m_text m
  | _ => default [] (m_caps m !! n)
  end.

(** The successive matches of [re.finditer]: after a match the scan goes on
    where it ended, after an empty match or none one character further. *)
Fixpoint matches_from (fuel : nat) (r : regex) (s : str) : list match_obj :=
  match fuel with
  | 0 => []
  | S fuel' =>
      match re_match r s with
      | Some m =>
          if length (m_rest m) <? length s
          then m :: matches_from fuel' r (m_rest m)
          else m :: match s with
                    | [] => []
                    | _ :: s' => matches_from fuel' r s'
                    end
      | None =>
          match s with
          | [] => []
          | _ :: s' => matches_from fuel' r s'
          end
      end
  end.

(** [re.findall(r, s)] for a pattern with exactly one group. *)
Definition re_findall1 (r : regex) (s : str) : list str :=
  map (fun m => group m 1) (matches_from (S (length s)) r s).

(** [re.sub(r, repl, s)] for a replacement text without group references. *)
Fixpoint sub_from (fuel : nat) (r : regex) (repl s : str) : str :=
  match fuel with
  | 0 => s
  | S fuel' =>
      let copy := match s with
                  | [] => []
                  | c :: s' => c :: sub_from fuel' r repl s'
                  end in
      match re_match r s with
      | Some m =>
          if length (m_rest m) <? length s
          then repl ++ sub_from fuel' r repl (m_rest m)
          else repl ++ copy
      | None => copy
      end
  end.

Definition re_sub (r : regex) (repl s : str) : str :=
  sub_from (S (length s)) r repl s.

(** *** Pattern syntax *)

Definition chr (c : ascii) : regex := Chr (fun x => bool_decide (x = c)).

(** A literal character under [re.IGNORECASE], on the characters of this
    development (code points below 256): there two characters match when
    their lower-case forms agree, as in Python.  Python folds case over all
    of Unicode; above U+00FF it also lets U+017F match s, U+212A match k,
    and U+0130 and U+0131 match i.  Those characters are not in this model,
    and no statement below is about a text that has one. *)
Definition chr_i (c : ascii) : regex :=
  Chr (fun x => bool_decide (lower_char x = lower_char c)).

(** A character class under [re.IGNORECASE], on the characters of this
    development: a character is in the class when it, its lower-case form or
    its upper-case form is.  Above U+00FF Python also takes U+0130, U+0131,
    U+017F and U+212A for ASCII letters; they are not in this model. *)
Definition fold_case (p : ascii -> bool) : ascii -> bool :=
  fun x => p x || p (lower_char x) || p (upper_char x).

Fixpoint lit (s : str) : regex :=
  match s with
  | [] => Eps
  | [c] => chr c
  | c :: s' => Seq (chr c) (lit s')
  end.

Fixpoint lit_i (s : str) : regex :=
  match s with
  | [] => Eps
  | [c] => chr_i c
  | c :: s' => Seq (chr_i c) (lit_i s')
  end.

Fixpoint cat (rs : list regex) : regex :=
  match rs with
  | [] => Eps
  | [r] => r
  | r :: rs' => Seq r (cat rs')
  end.

Fixpoint alt (rs : list regex) : regex :=
  match rs with
  | [] => Eps
  | [r] => r
  | r :: rs' => Alt r (alt rs')
  end.

Definition star (r : regex) : regex := Rep true 0 None r.
Definition plus (r : regex) : regex := Rep true 1 None r.
Definition lazy_star (r : regex) : regex := Rep false 0 None r.
Definition at_least (n : nat) (r : regex) : regex := Rep true n None r.
Definition between (lo hi : nat) (r : regex) : regex := Rep true lo (Some hi) r.
Definition exactly (n : nat) (r : regex) : regex := Rep true n (Some n) r.

Definition ws : regex := Chr is_space.
Definition digit : regex := Chr is_digit.
Definition alpha : regex := Chr is_alpha.

(** ** Text normaliser *)

(** [normalize_ws]: [re.sub(r"\s+", " ", s).strip()], the empty string for
    an empty argument. *)
Definition normalize_ws (s : str) : str :=
  match s with
  | [] => []
  | _ => strip (re_sub (plus ws) " " s)
  end.

(** [split_location_and_date] *)
Definition split_location_and_date (s : str) : str * str :=
  let fallback := ([], normalize_ws s) in
  if contains_char "|" s then
    match map normalize_ws (split1 "|" s) with
    | [a; b] => (a, b)
    | _ => fallback
    end
  else fallback.

(** "Month D-D, YYYY":
    [([A-Za-z]{3,})\s+(\d{1,2})\-(\d{1,2}),\s*(\d{4})] *)
Definition re_month_days : regex :=
  cat [Grp 1 (at_least 3 alpha); plus ws; Grp 2 (between 1 2 digit); chr "-";
       Grp 3 (between 1 2 digit); chr ","; star ws; Grp 4 (exactly 4 digit)].

(** "Month D - Month D, YYYY":
    [([A-Za-z]{3,})\s+(\d{1,2})\s*-\s*([A-Za-z]{3,})\s+(\d{1,2}),\s*(\d{4})] *)
Definition re_two_months : regex :=
  cat [Grp 1 (at_least 3 alpha); plus ws; Grp 2 (between 1 2 digit);
       star ws; chr "-"; star ws;
       Grp 3 (at_least 3 alpha); plus ws; Grp 4 (between 1 2 digit);
       chr ","; star ws; Grp 5 (exactly 4 digit)].

(** [\d{4}\.\d{2}\.\d{2}] and [\d{1,2}\.\d{1,2}\.\d{4}] *)
Definition re_ymd : regex :=
  cat [exactly 4 digit; chr "."; exactly 2 digit; chr "."; exactly 2 digit].
Definition re_dmy : regex :=
  cat [between 1 2 digit; chr "."; between 1 2 digit; chr "."; exactly 4 digit].

(** [(ymd)\s*-\s*(ymd)] and [(dmy)\s*-\s*(dmy)] *)
Definition re_ymd_range : regex :=
  cat [Grp 1 re_ymd; star ws; chr "-"; star ws; Grp 2 re_ymd].
Definition re_dmy_range : regex :=
  cat [Grp 1 re_dmy; star ws; chr "-"; star ws; Grp 2 re_dmy].

(** [[A-Za-z]{3,}\s+\d{1,2},\s*\d{4}] *)
Definition re_month_day_year : regex :=
  cat [at_least 3 alpha; plus ws; between 1 2 digit; chr ","; star ws;
       exactly 4 digit].

(** The token pattern of the fallback:
    [(month day, year|dmy|ymd)] *)
Definition re_date_token : regex :=
  Grp 1 (alt [re_month_day_year; re_dmy; re_ymd]).

(** [parse_date_range] *)
Definition parse_date_range (s : str) : str * str :=
  let s := normalize_ws s in
  match s with
  | [] => ([], [])
  | _ =>
    match re_match re_month_days s with
    | Some m =>
        (group m 1 ++ " " ++ group m 2 ++ ", " ++ group m 4,
         group m 1 ++ " " ++ group m 3 ++ ", " ++ group m 4)
    | None =>
    match re_match re_two_months s with
    | Some m =>
        (group m 1 ++ " " ++ group m 2 ++ ", " ++ group m 5,
         group m 3 ++ " " ++ group m 4 ++ ", " ++ group m 5)
    | None =>
    match re_match re_ymd_range s with
    | Some m => (group m 1, group m 2)
    | None =>
    match re_match re_dmy_range s with
    | Some m => (group m 1, group m 2)
    | None =>
    match re_findall1 re_date_token s with
    | t0 :: t1 :: _ => (t0, t1)
    | _ => (s, [])
    end end end end end
  end.

(** [int(d)] on a string of decimal digits, and the decimal text that an
    f-string prints for an integer. *)
Definition int_of (d : str) : nat :=
  fold_left (fun n c => 10 * n + (code c - 48)) d 0.

Definition decimal (n : nat) : str :=
  list_ascii_of_string (NilZero.string_of_uint (Nat.to_uint n)).

(** [(\d{1,2})\s+([A-Za-z]{3,}),\s*(\d{4})] *)
Definition re_day_month_year : regex :=
  cat [Grp 1 (between 1 2 digit); plus ws; Grp 2 (at_least 3 alpha); chr ",";
       star ws; Grp 3 (exactly 4 digit)].

(** [([A-Za-z]{3,})\s+(\d{1,2}),\s*(\d{4})] *)
Definition re_month_day_year_groups : regex :=
  cat [Grp 1 (at_least 3 alpha); plus ws; Grp 2 (between 1 2 digit); chr ",";
       star ws; Grp 3 (exactly 4 digit)].

(** [normalize_date_token] *)
Definition normalize_date_token (token : str) : str :=
  let token := normalize_ws token in
  match token with
  | [] => []
  | _ =>
    match re_match re_day_month_year token with
    | Some m => group m 2 ++ " " ++ decimal (int_of (group m 1)) ++ ", " ++ group m 3
    | None =>
    match re_match re_month_day_year_groups token with
    | Some m => group m 1 ++ " " ++ decimal (int_of (group m 2)) ++ ", " ++ group m 3
    | None => token
    end end
  end.

(** [parse_formatted_date_range] *)
Definition parse_formatted_date_range (formatted : str) : str * str :=
  match formatted with
  | [] => ([], [])
  | _ =>
    let fallback := parse_date_range formatted in
    if contains_char "-" formatted && contains_char "," formatted
       && existsb isdigit formatted
    then
      match map normalize_ws (split1 "-" formatted) with
      | [a; b] => (normalize_date_token a, normalize_date_token b)
      | _ => fallback
      end
    else fallback
  end.

(** ** Records, requests and effects *)

(** A tournament record: the ten keys of the dictionaries that both
    extractors build. *)
Record row : Type := Row {
  name : str;
  location : str;
  start_date : str;
  end_date : str;
  surface : str;
  indoor_outdoor : str;
  winner : str;
  results_url : str;
  source : str;
  source_page : str
}.

(** The deduplication key [(name, location, start_date, end_date)]. *)
Abbreviation key := (str * str * str * str)%type.

Definition row_key (r : row) : key :=
  (name r, location r, start_date r, end_date r).

(** A decoded JSON value, as [resp.json()] returns it. *)
#[warnings="-register-all"]
Inductive json : Type :=
| JNull
| JBool (b : bool)
| JNum (q : Q)
| JStr (s : str)
| JArr (items : list json)
| JObj (fields : list (str * json)).

(** A response of [requests.get]; [json_body] is [None] when [resp.json()]
    raises. *)
Record response : Type := Response {
  status_code : Z;
  text : str;
  json_body : option json
}.

(** What one call of [requests.get] does: it raises a
    [requests.RequestException] or returns a response. *)
Inductive http : Type :=
| ConnError
| Reply (resp : response).

(** An [<a>] element: its [get_text()], its [href] attribute when it has
    one, and the [get_text(" ", strip=True)] of its parent when it has one. *)
Record anchor : Type := Anchor {
  a_text : str;
  a_href : option str;
  a_parent_text : option str
}.

(** A candidate element: its [get_text(" ", strip=True)], its
    [get_text(separator=" ")] and the anchors of [find_all("a")]. *)
Record container : Type := Container {
  c_text : str;
  c_text_sep : str;
  c_anchors : list anchor
}.

(** The outside of the program: the outcome of the n-th request of the run
    to a URL, the visible text [get_text(" ", strip=True)] of a fetched page,
    and the elements that the selectors "section", "div", "li" and "article"
    pick from it, in that order. *)
Record env : Type := Env {
  net : nat -> str -> http;
  page_text : str -> str;
  page_containers : str -> list container
}.

Inductive event : Type :=
| Get (url : str) (json_headers : bool)
| Sleep (seconds : Q)
| WriteCsv (path : str) (rows : list row).

Record world : Type := World {
  sent : nat;
  trace : list event
}.

Inductive exn : Type :=
| TypeError
| AttributeError.

Inductive res (A : Type) : Type :=
| Ok (a : A)
| Raise (e : exn).
Arguments Ok {A} a.
Arguments Raise {A} e.

Definition res_bind {A B : Type} (x : res A) (f : A -> res B) : res B :=
  match x with
  | Ok a => f a
  | Raise e => Raise e
  end.

(** Computations that send requests, sleep, and may raise. *)
Definition M (A : Type) : Type := world -> res A * world.

Definition ret {A : Type} (a : A) : M A := fun w => (Ok a, w).

Definition bind {A B : Type} (m : M A) (f : A -> M B) : M B :=
  fun w =>
    match m w with
    | (Ok a, w') => f a w'
    | (Raise e, w') => (Raise e, w')
    end.

Definition lift {A : Type} (x : res A) : M A := fun w => (x, w).

(** [try: m except Exception: h] *)
Definition catch {A : Type} (m : M A) (h : M A) : M A :=
  fun w =>
    match m w with
    | (Ok a, w') => (Ok a, w')
    | (Raise _, w') => h w'
    end.

Definition emit (e : event) : M unit :=
  fun w => (Ok tt, World (sent w) (trace w ++ [e])).

Notation "'let*' x ':=' m 'in' k" := (bind m (fun x => k))
  (at level 10, x name, m at level 100, k at level 200).
Notation "m ';;' k" := (bind m (fun _ => k))
  (at level 100, k at level 200, right associativity).
Notation "'let+' x ':=' m 'in' k" := (res_bind m (fun x => k))
  (at level 10, x name, m at level 100, k at level 200).

(** [requests.get(url, headers=..., timeout=TIMEOUT)] *)
Definition http_get (E : env) (url : str) (json_headers : bool) : M http :=
  fun w =>
    (Ok (net E (sent w) url),
     World (S (sent w)) (trace w ++ [Get url json_headers])).

(** [time.sleep(seconds)] *)
Definition sleep (seconds : Q) : M unit := emit (Sleep seconds).

(** ** Fetcher *)

Definition RETRY : nat := 3.
Definition SLEEP_BETWEEN : Q := 8 # 10.

Definition ATP_TOUR_URL : str := "https://www.atptour.com/en/tournaments".
Definition ATP_CHALLENGER_URL : str :=
  "https://www.atptour.com/en/atp-challenger-tour/calendar".
Definition ATP_ITF_URL : str :=
  "https://www.atptour.com/en/atp-challenger-tour/itf-calendar".
Definition ATP_TOUR_JSON : str :=
  "https://www.atptour.com/en/-/tournaments/calendar/tour".
Definition ATP_CHALLENGER_JSON : str :=
  "https://www.atptour.com/en/-/tournaments/calendar/challenger".
Definition ATP_ITF_JSON : str :=
  "https://www.atptour.com/en/-/tournaments/calendar/futures".

(** [200 <= resp.status_code < 300] *)
Definition status_ok (resp : response) : bool :=
  (200 <=? status_code resp)%Z && (status_code resp <? 300)%Z.

Definition nonempty (s : str) : bool :=
  match s with
  | [] => false
  | _ => true
  end.

(** What the [try] block of one attempt finds: the body to return, if any. *)
Definition attempt_body (r : http) : option str :=
  match r with
  | Reply resp =>
      if status_ok resp && nonempty (text resp) then Some (text resp) else None
  | ConnError => None
  end.

(** The seconds slept after the attempt numbered [i] of [range(RETRY)]:
    [SLEEP_BETWEEN * (i + 1)], kept as an exact rational. *)
Definition backoff (i : nat) : Q :=
  (SLEEP_BETWEEN * inject_Z (Z.of_nat (i + 1)))%Q.

(** The loop [for i in attempts] of [fetch]. *)
Fixpoint fetch_loop (E : env) (url : str) (attempts : list nat)
  : M (option str) :=
  match attempts with
  | [] => ret None
  | i :: attempts' =>
      let* r := http_get E url false in
      match attempt_body r with
      | Some body => ret (Some body)
      | None => sleep (backoff i) ;; fetch_loop E url attempts'
      end
  end.

(** [fetch] *)
Definition fetch (E : env) (url : str) : M (option str) :=
  fetch_loop E url (seq 0 RETRY).

(** ** Surface and winner heuristics *)

(** [(Hard|Clay|Grass|Carpet|Acrylic|Synthetic)] with [re.IGNORECASE] *)
Definition re_surface : regex :=
  Grp 1 (alt [lit_i "Hard"; lit_i "Clay"; lit_i "Grass"; lit_i "Carpet";
              lit_i "Acrylic"; lit_i "Synthetic"]).

(** [(Indoor|Outdoor)] with [re.IGNORECASE] *)
Definition re_indoor_outdoor : regex :=
  Grp 1 (alt [lit_i "Indoor"; lit_i "Outdoor"]).

(** [try_extract_surface_text] *)
Definition try_extract_surface_text (c : container) : str * str :=
  let text := normalize_ws (c_text_sep c) in
  let surf :=
    match re_search re_surface text with
    | Some m => title (group m 1)
    | None => []
    end in
  let io :=
    match re_search re_indoor_outdoor text with
    | Some m =>
        if startswith "in" (lower (group m 1)) then "Indoor" : str
        else "Outdoor" : str
    | None => []
    end in
  (surf, io).

Definition is_alnum (c : ascii) : bool := is_alpha c || is_digit c.
(** [[a-zA-Z\-']] *)
Definition is_name_char (c : ascii) : bool :=
  is_alpha c || bool_decide (c = "-"%char) || bool_decide (c = "'"%char).
(** [.] without [re.DOTALL] *)
Definition is_not_newline (c : ascii) : bool := negb (code c =? 10).

(** [[A-Z][a-zA-Z]+(?:\s+[A-Z][a-zA-Z\-']+){0,3}] *)
Definition re_name : regex :=
  cat [Chr is_AZ; plus (Chr is_alpha);
       between 0 3 (cat [plus ws; Chr is_AZ; plus (Chr is_name_char)])].

(** The same under [re.IGNORECASE]. *)
Definition re_name_i : regex :=
  cat [Chr (fold_case is_AZ); plus (Chr (fold_case is_alpha));
       between 0 3 (cat [plus ws; Chr (fold_case is_AZ);
                         plus (Chr (fold_case is_name_char))])].

(** [(Singles.*?)((Champion|Winner)[^A-Za-z0-9]+(name))] with
    [re.IGNORECASE] *)
Definition re_winner_section : regex :=
  cat [Grp 1 (cat [lit_i "Singles"; lazy_star (Chr is_not_newline)]);
       Grp 2 (cat [Grp 3 (alt [lit_i "Champion"; lit_i "Winner"]);
                   plus (Chr (fun x => negb (fold_case is_alnum x)));
                   Grp 4 re_name_i])].

(** [(Champion|Winner)\s*:\s*(name)] *)
Definition re_winner_label : regex :=
  cat [Grp 1 (alt [lit "Champion"; lit "Winner"]); star ws; chr ":"; star ws;
       Grp 2 re_name].

(** The second heuristic of [try_extract_winner_from_results]. *)
Definition winner_by_label (txt : str) : str :=
  match re_search re_winner_label txt with
  | Some m => normalize_ws (group m 2)
  | None => []
  end.

(** The part of [try_extract_winner_from_results] that works on the visible
    text of the fetched page. *)
Definition winner_from_text (txt : str) : str :=
  match re_search re_winner_section txt with
  | Some m =>
      let cand := group m 4 in
      let words := length (split_ws cand) in
      if (2 <=? words) && (words <=? 4) then normalize_ws cand
      else winner_by_label txt
  | None => winner_by_label txt
  end.

(** [try_extract_winner_from_results] *)
Definition try_extract_winner_from_results (E : env) (url : str) : M str :=
  let* html := fetch E url in
  match html with
  | None => ret []
  | Some [] => ret []
  | Some html => ret (winner_from_text (page_text E html))
  end.

(** ** Deduplicator *)

(** One round of the loop of [dedupe_rows] on the state [(out, seen)]. *)
Definition dedupe_step (st : list row * gset key) (r : row)
  : list row * gset key :=
  if decide (row_key r ∈ st.2) then st
  else (st.1 ++ [r], st.2 ∪ {[row_key r]}).

(** [dedupe_rows] *)
Definition dedupe_rows (rows : list row) : list row :=
  (fold_left dedupe_step rows ([], ∅)).1.

(** ** Python values decoded from JSON *)

(** Truth value of a Python object. *)
Definition truthy (v : json) : bool :=
  match v with
  | JNull => false
  | JBool b => b
  | JNum q => negb (Qeq_bool q 0)
  | JStr s => nonempty s
  | JArr items => match items with [] => false | _ => true end
  | JObj fields => match fields with [] => false | _ => true end
  end.

(** [for x in v]: the elements of a list, the keys of a dict, the characters
    of a string; anything else is not iterable. *)
Definition py_iter (v : json) : res (list json) :=
  match v with
  | JArr items => Ok items
  | JObj fields => Ok (map (fun kv => JStr kv.1) fields)
  | JStr s => Ok (map (fun c => JStr [c]) s)
  | _ => Raise TypeError
  end.

(** Lookup in a dict given by its items. *)
Fixpoint dict_get (fields : list (str * json)) (k : str) : option json :=
  match fields with
  | [] => None
  | (k', v) :: fields' => if bool_decide (k' = k) then Some v else dict_get fields' k
  end.

(** [t.get(k, dflt)]; only a dict has a [get] method. *)
Definition py_get (t : json) (k : str) (dflt : json) : res json :=
  match t with
  | JObj fields => Ok (default dflt (dict_get fields k))
  | _ => Raise AttributeError
  end.

(** [normalize_ws] on an argument of any type: a false value gives the empty
    string, a string is normalised, [re.sub] refuses anything else. *)
Definition normalize_ws_value (v : json) : res str :=
  match v with
  | JStr s => Ok (normalize_ws s)
  | _ => if truthy v then Raise TypeError else Ok []
  end.

(** [a or b] *)
Definition py_or (a b : json) : json := if truthy a then a else b.

(** [if results_url and results_url.startswith("/"): results_url =
    "https://www.atptour.com" + results_url]; only a string has
    [startswith].  A false value gets here only as the empty string, the
    last operand of [draws or scores or ""]. *)
Definition absolute_url (v : json) : res str :=
  if truthy v then
    match v with
    | JStr s => Ok (if startswith "/" s then "https://www.atptour.com" ++ s else s)
    | _ => Raise AttributeError
    end
  else
    match v with
    | JStr s => Ok s
    | _ => Ok []
    end.

(** ** JSON extractor *)

(** The fields read from one tournament entry, up to the key test. *)
Definition tournament_fields (t : json) (label url : str) : res row :=
  let+ v_name := py_get t "Name" (JStr []) in
  let+ name := normalize_ws_value v_name in
  let+ v_location := py_get t "Location" (JStr []) in
  let+ location := normalize_ws_value v_location in
  let+ v_formatted := py_get t "FormattedDate" (JStr []) in
  let+ formatted := normalize_ws_value v_formatted in
  let dates := parse_formatted_date_range formatted in
  let+ v_surface := py_get t "Surface" (JStr []) in
  let+ surface := normalize_ws_value v_surface in
  let+ v_io := py_get t "IndoorOutdoor" (JStr []) in
  let+ indoor_outdoor := normalize_ws_value v_io in
  let+ v_draws := py_get t "DrawsUrl" JNull in
  let draws := py_or v_draws (JStr []) in
  let+ v_scores := py_get t "ScoresUrl" JNull in
  let scores := py_or v_scores (JStr []) in
  let+ results_url := absolute_url (py_or draws (py_or scores (JStr []))) in
  Ok (Row name location dates.1 dates.2 surface indoor_outdoor []
          results_url label url).

Definition set_winner (r : row) (w : str) : row :=
  Row (name r) (location r) (start_date r) (end_date r) (surface r)
      (indoor_outdoor r) w (results_url r) (source r) (source_page r).

(** The winner lookup shared by both extractors:
    [try: winner = try_extract_winner_from_results(results_url)
     except Exception: winner = ""], done only for a non-empty URL. *)
Definition resolve_winner (E : env) (results_url : str) : M str :=
  match results_url with
  | [] => ret []
  | _ => catch (try_extract_winner_from_results E results_url) (ret [])
  end.

(** The body of [for t in tournaments] on the state [(rows, seen)]. *)
Definition json_tournament (E : env) (url label : str) (t : json)
    (st : list row * gset key) : M (list row * gset key) :=
  let* r := lift (tournament_fields t label url) in
  if decide (row_key r ∈ st.2) then ret st
  else if negb (nonempty (name r)) then ret st
  else
    let* w := resolve_winner E (results_url r) in
    ret (st.1 ++ [set_winner r w], st.2 ∪ {[row_key r]}).

Fixpoint json_tournaments (E : env) (url label : str) (ts : list json)
    (st : list row * gset key) : M (list row * gset key) :=
  match ts with
  | [] => ret st
  | t :: ts' =>
      let* st' := json_tournament E url label t st in
      json_tournaments E url label ts' st'
  end.

(** [d.get("Tournaments", []) if isinstance(d, dict) else []] *)
Definition tournaments_of (d : json) : json :=
  match d with
  | JObj fields => default (JArr []) (dict_get fields "Tournaments")
  | _ => JArr []
  end.

(** [data.get("TournamentDates", []) if isinstance(data, dict) else []] *)
Definition dates_of (data : json) : json :=
  match data with
  | JObj fields => default (JArr []) (dict_get fields "TournamentDates")
  | _ => JArr []
  end.

(** The loop [for d in dates]. *)
Fixpoint json_dates (E : env) (url label : str) (ds : list json)
    (st : list row * gset key) : M (list row * gset key) :=
  match ds with
  | [] => ret st
  | d :: ds' =>
      let* ts := lift (py_iter (tournaments_of d)) in
      let* st' := json_tournaments E url label ts st in
      json_dates E url label ds' st'
  end.

(** The part of [parse_calendar_json] after the [try] block. *)
Definition rows_of_json (E : env) (url label : str) (data : json)
  : M (list row) :=
  let* ds := lift (py_iter (dates_of data)) in
  let* st := json_dates E url label ds ([], ∅) in
  ret (dedupe_rows st.1).

(** [parse_calendar_json]: a failed request, a status outside 200-299 and an
    undecodable body all give the empty list. *)
Definition parse_calendar_json (E : env) (url label : str) : M (list row) :=
  let* r := http_get E url true in
  match r with
  | ConnError => ret []
  | Reply resp =>
      if status_ok resp then
        match json_body resp with
        | Some data => rows_of_json E url label data
        | None => ret []
        end
      else ret []
  end.

(** ** HTML extractor *)

Definition one_of (s : str) (options : list str) : bool :=
  existsb (fun o => bool_decide (s = o)) options.

(** [find_results_link] *)
Fixpoint find_results_link (anchors : list anchor) : option str :=
  match anchors with
  | [] => None
  | a :: anchors' =>
      match a_href a with
      | Some href =>
          if one_of (lower (normalize_ws (a_text a))) ["results" : str; "draws" : str]
             && startswith "/" href
          then Some ("https://www.atptour.com" ++ href)
          else find_results_link anchors'
      | None => find_results_link anchors'
      end
  end.

(** The gate of the HTML extractor, with [re.IGNORECASE]:
    [(Jan|Feb|...|Dec|\d{1,2}\.\d{1,2}\.\d{4}|\d{4}\.\d{2}\.\d{2})] *)
Definition re_gate : regex :=
  Grp 1 (alt [lit_i "Jan"; lit_i "Feb"; lit_i "Mar"; lit_i "Apr"; lit_i "May";
              lit_i "Jun"; lit_i "Jul"; lit_i "Aug"; lit_i "Sep"; lit_i "Oct";
              lit_i "Nov"; lit_i "Dec"; re_dmy; re_ymd]).

(** The loop that looks for the name link: the first anchor whose text is
    not empty, not a navigation label, and 3 to 120 characters long. *)
Fixpoint find_name_link (anchors : list anchor) : option (str * anchor) :=
  match anchors with
  | [] => None
  | a :: anchors' =>
      let atxt := normalize_ws (a_text a) in
      if negb (nonempty atxt)
         || one_of (lower atxt)
              ["draws" : str; "results" : str; "tickets" : str;
               "profile" : str; "latest" : str]
      then find_name_link anchors'
      else if (length atxt <=? 2) || (120 <? length atxt)
      then find_name_link anchors'
      else Some (atxt, a)
  end.

(** The location and date text of a candidate element. *)
Definition loc_date_of (name : str) (name_a : anchor) (text : str) : str :=
  let loc_date :=
    match a_parent_text name_a with
    | Some parent_text => strip (remove_first name (normalize_ws parent_text))
    | None => []
    end in
  if nonempty loc_date then loc_date else text.

(** The body of [for c in containers] on the state [(rows, seen)]. *)
Definition html_container (E : env) (url label : str) (c : container)
    (st : list row * gset key) : M (list row * gset key) :=
  let text := normalize_ws (c_text c) in
  if negb (nonempty text) then ret st
  else if negb (contains_char "|" text) then ret st
  else if negb (bool_decide (is_Some (re_search re_gate text))) then ret st
  else
    match find_name_link (c_anchors c) with
    | None => ret st
    | Some (name, name_a) =>
        let loc_date := loc_date_of name name_a text in
        let (location, formatted) := split_location_and_date loc_date in
        let (start_date, end_date) := parse_date_range formatted in
        let (surface, indoor_outdoor) := try_extract_surface_text c in
        let results_url := find_results_link (c_anchors c) in
        let k := (name, location, start_date, end_date) in
        if decide (k ∈ st.2) then ret st
        else
          let* w := resolve_winner E (default [] results_url) in
          ret (st.1 ++ [Row name location start_date end_date surface
                            indoor_outdoor w (default [] results_url)
                            label url],
               st.2 ∪ {[k]})
    end.

Fixpoint html_containers (E : env) (url label : str) (cs : list container)
    (st : list row * gset key) : M (list row * gset key) :=
  match cs with
  | [] => ret st
  | c :: cs' =>
      let* st' := html_container E url label c st in
      html_containers E url label cs' st'
  end.

(** [parse_calendar_like] *)
Definition parse_calendar_like (E : env) (url label : str) : M (list row) :=
  let* html := fetch E url in
  match html with
  | None => ret []
  | Some [] => ret []
  | Some html =>
      let* st := html_containers E url label (page_containers E html) ([], ∅) in
      ret (dedupe_rows st.1)
  end.

(** ** Orchestrator *)

(** [write_csv(path, rows)], recorded as an event. *)
Definition write_csv (path : str) (rows : list row) : M unit :=
  emit (WriteCsv path rows).

(** [parse_calendar_json(json_url, label) or parse_calendar_like(html_url,
    label)]: the second call is evaluated when the first list is empty. *)
Definition json_or_html (E : env) (json_url html_url label : str)
  : M (list row) :=
  let* rows := parse_calendar_json E json_url label in
  match rows with
  | [] => parse_calendar_like E html_url label
  | _ => ret rows
  end.

(** The three source categories of [main]: JSON endpoint, calendar page,
    label and output file. *)
Definition categories : list (str * str * str * str) :=
  [ (ATP_TOUR_JSON, ATP_TOUR_URL, "ATP Tour" : str,
     "atp_tour_tournaments.csv" : str);
    (ATP_CHALLENGER_JSON, ATP_CHALLENGER_URL, "ATP Challenger" : str,
     "challenger_tournaments.csv" : str);
    (ATP_ITF_JSON, ATP_ITF_URL, "ITF" : str, "itf_tournaments.csv" : str) ].

Definition main_category (E : env) (cat : str * str * str * str) : M unit :=
  let '(json_url, html_url, label, path) := cat in
  let* rows := json_or_html E json_url html_url label in
  write_csv path rows.

Fixpoint main_from (E : env) (cats : list (str * str * str * str)) : M unit :=
  match cats with
  | [] => ret tt
  | cat :: cats' => main_category E cat ;; main_from E cats'
  end.

(** [main] *)
Definition main (E : env) : M unit := main_from E categories.

(** ** What a match means *)

(** [n] rounds of a body, one after the other. *)
Inductive iter (P : str -> caps -> caps -> Prop)
  : nat -> str -> caps -> caps -> Prop :=
| iter_O g : iter P 0 [] g g
| iter_S n w1 w2 g g1 g2 :
    P w1 g g1 -> iter P n w2 g1 g2 -> iter P (S n) (w1 ++ w2) g g2.

Definition within (hi : option nat) (n : nat) : Prop :=
  match hi with
  | Some h => n <= h
  | None => True
  end.

(** [matches r w g g']: the text [w] is matched by [r], and the groups [g]
    set before the match become [g']. *)
#[warnings="-register-all"]
Inductive matches : regex -> str -> caps -> caps -> Prop :=
| M_eps g : matches Eps [] g g
| M_chr p c g : p c = true -> matches (Chr p) [c] g g
| M_seq r1 r2 w1 w2 g g1 g2 :
    matches r1 w1 g g1 -> matches r2 w2 g1 g2 ->
    matches (Seq r1 r2) (w1 ++ w2) g g2
| M_alt_l r1 r2 w g g' : matches r1 w g g' -> matches (Alt r1 r2) w g g'
| M_alt_r r1 r2 w g g' : matches r2 w g g' -> matches (Alt r1 r2) w g g'
| M_rep greedy lo hi r n w g g' :
    iter (matches r) n w g g' -> lo <= n -> within hi n ->
    matches (Rep greedy lo hi r) w g g'
| M_grp n r w g g' :
    matches r w g g' -> matches (Grp n r) w g (<[n := w]> g').

(** ** Vocabulary of the statements *)

(** A reply that [fetch] accepts: a status from 200 to 299 and a body that is
    not empty. *)
Definition accepted (r : http) (body : str) : Prop :=
  exists resp, r = Reply resp /\
    (200 <= status_code resp < 300)%Z /\ text resp = body /\ body <> [].

(** What a failed attempt numbered [i] leaves in the trace: its request and
    the sleep of [SLEEP_BETWEEN] times the attempt number [i + 1]. *)
Definition failed_attempt (url : str) (i : nat) : list event :=
  [Get url false; Sleep (SLEEP_BETWEEN * inject_Z (Z.of_nat (i + 1)))%Q].

(** The tournament entries of a decoded payload, and a record that the JSON
    extractor builds from one of them: the fields read from the entry, with
    a winner filled in. *)
Definition entry_of (data t : json) : Prop :=
  exists ds d ts,
    py_iter (dates_of data) = Ok ds /\ d ∈ ds /\
    py_iter (tournaments_of d) = Ok ts /\ t ∈ ts.

Definition built_from_entry (label url : str) (data : json) (x : row) : Prop :=
  exists t r w,
    entry_of data t /\ tournament_fields t label url = Ok r /\
    x = set_winner r w.

(** A decoded calendar with two entries on one date; the second entry has
    an empty name. *)
Definition sample_calendar : json :=
  JObj [("TournamentDates" : str,
         JArr [JObj [("Tournaments" : str,
                      JArr [JObj [("Name" : str, JStr "Foo  Open");
                                  ("Location" : str, JStr "Paris, France");
                                  ("FormattedDate" : str,
                                   JStr "27 December, 2024 - 5 January, 2025");
                                  ("Surface" : str, JStr "Red Clay")];
                            JObj [("Name" : str, JStr "  ");
                                  ("Surface" : str, JStr "Hard")]])]])].

(** A network that answers every request with [sample_calendar]. *)
Definition sample_env : env :=
  Env (fun _ _ => Reply (Response 200 "{}" (Some sample_calendar)))
      (fun html => html) (fun _ => []).

(** The surfaces that the specification lists. *)
Definition known_surfaces : list str :=
  ["Hard" : str; "Clay" : str; "Grass" : str; "Carpet" : str;
   "Acrylic" : str; "Synthetic" : str].

Definition known_surface (s : str) : Prop := s ∈ known_surfaces \/ s = [].

(** A text that begins with a character of the class [p]. *)
Definition headed (p : ascii -> bool) (s : str) : Prop :=
  exists c s', s = c :: s' /\ p c = true.

(** What the specification says of a resolved winner: empty, or capitalised
    and 2 to 4 words long. *)
Definition claimed_winner (r : str) : Prop :=
  r = [] \/ (headed is_AZ r /\ 2 <= length (split_ws r) <= 4).

(** Every maximal run of blanks replaced by one space; [in_run] tells that
    the previous character was a blank.  This is what
    [re.sub(r"\s+", " ", s)] computes (lemma [re_sub_ws]). *)
Fixpoint squeeze (in_run : bool) (s : str) : str :=
  match s with
  | [] => []
  | c :: s' =>
      if is_space c
      then (if in_run then squeeze true s' else " "%char :: squeeze true s')
      else c :: squeeze false s'
  end.

(** The two parts of [split_location_and_date], joined again. *)
Definition rejoin (parts : str * str) : str := parts.1 ++ " | " ++ parts.2.

(** Texts made of blanks only, and texts without a blank. *)
Definition blank (s : str) : Prop := Forall (fun c => is_space c = true) s.
Definition solid (s : str) : Prop := Forall (fun c => is_space c = false) s.

(** The canonical form "Month D, YYYY" that the date parsers print. *)
Definition canonical_date (mon d y : str) : str := mon ++ " " ++ d ++ ", " ++ y.

(** Number of characters of a class in a text. *)
Fixpoint count (p : ascii -> bool) (s : str) : nat :=
  match s with
  | [] => 0
  | c :: s' => (if p c then 1 else 0) + count p s'
  end.

(** A comma or a full stop: every date token has one. *)
Definition is_comma_or_dot (c : ascii) : bool :=
  bool_decide (c = ","%char) || bool_decide (c = "."%char).

(** Three records; the third repeats the key of the first with another
    winner. *)
Definition sample_rows : list row :=
  [Row "Foo Open" "Paris" "May 1, 2025" "May 7, 2025" "Clay" "Outdoor"
       "" "" "ATP Tour" "u";
   Row "Bar Cup" "Rome" "May 8, 2025" "May 14, 2025" "Clay" "Outdoor"
       "" "" "ATP Tour" "u";
   Row "Foo Open" "Paris" "May 1, 2025" "May 7, 2025" "Hard" "Indoor"
       "A Player" "" "ATP Tour" "u"].

(** A calendar page with one tournament block, selected twice (as a "div"
    and as a "li"), and a results page that names the champion. *)
Definition sample_block : container :=
  Container "Indian Wells Open Indian Wells | March 6-16, 2025 Hard Results"
            "Indian Wells Open  Indian Wells | March 6-16, 2025  Hard  Results"
            [Anchor "Indian Wells Open" (Some ("/en/tournaments/iw" : str))
                    (Some ("Indian Wells Open Indian Wells | March 6-16, 2025" : str));
             Anchor "Results" (Some ("/en/scores/iw/results" : str))
                    (Some ("Results" : str))].

Definition sample_site : env :=
  Env (fun _ _ => Reply (Response 200 "<html>" None))
      (fun _ => "Singles Champion: Jannik Sinner")
      (fun _ => [sample_block; sample_block]).

(** A results page whose visible text is a sentence about the final, with
    no name in it. *)
Definition crowned_page : env :=
  Env (fun _ _ => Reply (Response 200 "<html>" None))
      (fun _ => "Singles champion was crowned today in Rome" : str)
      (fun _ => []).

(** A decoded calendar whose one date entry has [null] for its tournaments,
    and a network that answers every request with it. *)
Definition null_tournaments_calendar : json :=
  JObj [("TournamentDates" : str,
         JArr [JObj [("Tournaments" : str, JNull)]])].

Definition null_tournaments_site : env :=
  Env (fun _ _ => Reply (Response 200 "{}" (Some null_tournaments_calendar)))
      (fun html => html) (fun _ => []).

(** * Properties *)

(** ** The matcher is sound *)

Section Soundness.

Implicit Types (r : regex) (s w : str) (g : caps).

Lemma take_app_rest w s : take (length (w ++ s) - length s) (w ++ s) = w.
Proof.
  rewrite length_app. replace (length w + length s - length s) with (length w) by lia.
  by rewrite take_app_length.
Qed.

Lemma or_else_Some (a b : outcome) x :
  or_else a b = Some x -> a = Some x \/ b = Some x.
Proof. destruct a; simpl; intros; [left | right]; congruence. Qed.

Lemma rep_loop_sound body (P : str -> caps -> caps -> Prop) greedy lo hi k :
  (forall s g k' x, body s g k' = Some x ->
     exists w s' g', s = w ++ s' /\ P w g g' /\ k' s' g' = Some x) ->
  forall fuel cnt s g x,
    within hi cnt ->
    rep_loop body greedy lo hi k fuel cnt s g = Some x ->
    exists n w s' g',
      s = w ++ s' /\ iter P n w g g' /\ lo <= cnt + n /\
      within hi (cnt + n) /\ k s' g' = Some x.
Proof.
  intros Hbody. induction fuel as [|fuel IH]; intros cnt s g x Hcnt Hrun.
  - simpl in Hrun. destruct (lo <=? cnt) eqn:Hlo; [|done].
    apply Nat.leb_le in Hlo. exists 0, [], s, g.
    rewrite Nat.add_0_r. repeat split; auto using iter_O.
  - simpl in Hrun.
    assert (Hstop : (if lo <=? cnt then k s g else None) = Some x ->
              exists n w s' g', s = w ++ s' /\ iter P n w g g' /\
                lo <= cnt + n /\ within hi (cnt + n) /\ k s' g' = Some x).
    { destruct (lo <=? cnt) eqn:Hlo; [|done]. intros Hk.
      apply Nat.leb_le in Hlo. exists 0, [], s, g.
      rewrite Nat.add_0_r. repeat split; auto using iter_O. }
    assert (Hmore :
      (if below hi cnt
       then body s g (fun s' g' =>
              if length s' <? length s
              then rep_loop body greedy lo hi k fuel (S cnt) s' g' else None)
       else None) = Some x ->
      exists n w s' g', s = w ++ s' /\ iter P n w g g' /\
        lo <= cnt + n /\ within hi (cnt + n) /\ k s' g' = Some x).
    { destruct (below hi cnt) eqn:Hb; [|done]. intros Hm.
      apply Hbody in Hm as (w1 & s1 & g1 & -> & HP & Hk).
      destruct (length s1 <? length (w1 ++ s1)); [|done].
      apply IH in Hk as (n & w2 & s2 & g2 & -> & Hit & Hlo & Hhi & Hk).
      - exists (S n), (w1 ++ w2), s2, g2.
        rewrite <- app_assoc, Nat.add_succ_r. repeat split; eauto using iter_S.
      - destruct hi as [h|]; simpl in *; [|done]. apply Nat.ltb_lt in Hb. lia. }
    destruct greedy; apply or_else_Some in Hrun as [H|H]; auto.
Qed.

Theorem run_sound r : forall s g k x,
  run r s g k = Some x ->
  exists w s' g', s = w ++ s' /\ matches r w g g' /\ k s' g' = Some x.
Proof.
  induction r as [|p|r1 IH1 r2 IH2|r1 IH1 r2 IH2|greedy lo hi r IH|n r IH];
    intros s g k x Hrun; simpl in Hrun.
  - exists [], s, g. eauto using M_eps.
  - destruct s as [|c s]; [done|]. destruct (p c) eqn:Hp; [|done].
    exists [c], s, g. eauto using M_chr.
  - apply IH1 in Hrun as (w1 & s1 & g1 & -> & H1 & Hrun).
    apply IH2 in Hrun as (w2 & s2 & g2 & -> & H2 & Hk).
    exists (w1 ++ w2), s2, g2. rewrite <- app_assoc. eauto using M_seq.
  - apply or_else_Some in Hrun as [Hrun|Hrun].
    + apply IH1 in Hrun as (w & s' & g' & ? & ? & ?). eauto 8 using M_alt_l.
    + apply IH2 in Hrun as (w & s' & g' & ? & ? & ?). eauto 8 using M_alt_r.
  - eapply (rep_loop_sound _ (matches r)) in Hrun
      as (n & w & s' & g' & -> & Hit & Hlo & Hhi & Hk); [|exact IH|].
    + exists w, s', g'. eauto using M_rep.
    + destruct hi; simpl; [lia|done].
  - apply IH in Hrun as (w & s' & g' & -> & Hm & Hk).
    rewrite take_app_rest in Hk. exists w, s', (<[n := w]> g').
    eauto using M_grp.
Qed.

Lemma re_match_sound r s m :
  re_match r s = Some m ->
  s = m_text m ++ m_rest m /\ matches r (m_text m) ∅ (m_caps m).
Proof.
  unfold re_match. intros H.
  destruct (run r s ∅ _) as [[g s']|] eqn:Hrun; [|done].
  apply run_sound in Hrun as (w & s1 & g1 & -> & Hm & Hk).
  injection Hk as -> ->. injection H as <-. simpl.
  by rewrite take_app_rest.
Qed.

Lemma re_search_sound r s m :
  re_search r s = Some m ->
  exists pre, s = pre ++ m_text m ++ m_rest m /\
              matches r (m_text m) ∅ (m_caps m).
Proof.
  induction s as [|c s IH]; simpl; intros H.
  - destruct (re_match r []) eqn:Hm; [|done]. injection H as ->.
    apply re_match_sound in Hm as [-> ?]. by exists [].
  - destruct (re_match r (c :: s)) eqn:Hm.
    + injection H as ->. apply re_match_sound in Hm as [-> ?]. by exists [].
    + apply IH in H as (pre & -> & ?). by exists (c :: pre).
Qed.

Lemma matches_eps_inv w g g' : matches Eps w g g' -> w = [] /\ g' = g.
Proof. by inversion 1. Qed.

Lemma matches_chr_inv p w g g' :
  matches (Chr p) w g g' -> exists c, w = [c] /\ p c = true /\ g' = g.
Proof. inversion 1; subst. eauto. Qed.

Lemma matches_seq_inv r1 r2 w g g' :
  matches (Seq r1 r2) w g g' ->
  exists w1 w2 g1,
    w = w1 ++ w2 /\ matches r1 w1 g g1 /\ matches r2 w2 g1 g'.
Proof. inversion 1; subst. eauto 6. Qed.

Lemma matches_alt_inv r1 r2 w g g' :
  matches (Alt r1 r2) w g g' -> matches r1 w g g' \/ matches r2 w g g'.
Proof. inversion 1; subst; auto. Qed.

Lemma matches_rep_inv greedy lo hi r w g g' :
  matches (Rep greedy lo hi r) w g g' ->
  exists n, iter (matches r) n w g g' /\ lo <= n /\ within hi n.
Proof. inversion 1; subst. eauto. Qed.

Lemma matches_grp_inv n r w g g' :
  matches (Grp n r) w g g' ->
  exists g1, matches r w g g1 /\ g' = <[n := w]> g1.
Proof. inversion 1; subst. eauto. Qed.

End Soundness.

(** ** The fuel of the loops is enough *)

Lemma rep_loop_ext body greedy lo hi fuel :
  (forall s g k1 k2, (forall s' g', k1 s' g' = k2 s' g') ->
     body s g k1 = body s g k2) ->
  forall k1 k2 cnt s g,
    (forall s' g', k1 s' g' = k2 s' g') ->
    rep_loop body greedy lo hi k1 fuel cnt s g
    = rep_loop body greedy lo hi k2 fuel cnt s g.
Proof.
  intros Hbody. induction fuel as [|fuel IH]; intros k1 k2 cnt s g Hk; simpl.
  - by rewrite Hk.
  - rewrite Hk.
    rewrite (Hbody s g _ (fun s' g' =>
               if length s' <? length s
               then rep_loop body greedy lo hi k2 fuel (S cnt) s' g' else None)).
    + done.
    + intros s' g'. destruct (length s' <? length s); [|done]. by apply IH.
Qed.

(** The result of [run] depends on its continuation only through the
    continuation's values. *)
Lemma run_ext r : forall s g k1 k2,
  (forall s' g', k1 s' g' = k2 s' g') -> run r s g k1 = run r s g k2.
Proof.
  induction r as [|p|r1 IH1 r2 IH2|r1 IH1 r2 IH2|greedy lo hi r IH|n r IH];
    intros s g k1 k2 Hk; simpl.
  - apply Hk.
  - destruct s as [|c s]; [done|]. destruct (p c); [apply Hk|done].
  - apply IH1. intros s' g'. by apply IH2.
  - by rewrite (IH1 s g k1 k2 Hk), (IH2 s g k1 k2 Hk).
  - apply rep_loop_ext; [|done]. intros. by apply IH.
  - apply IH. intros s' g'. apply Hk.
Qed.

(** A match is found only through the continuation. *)
Lemma run_None r s g k :
  (forall s' g', k s' g' = None) -> run r s g k = None.
Proof.
  intros Hk. destruct (run r s g k) as [x|] eqn:Hrun; [|done].
  apply run_sound in Hrun as (w & s' & g' & _ & _ & Hx). by rewrite Hk in Hx.
Qed.

(** With fuel [length s] the repetition loop has all the fuel it can use:
    more fuel gives the same result. *)
Lemma rep_loop_fuel r greedy lo hi k fuel : forall cnt s g,
  length s <= fuel ->
  rep_loop (run r) greedy lo hi k (S fuel) cnt s g
  = rep_loop (run r) greedy lo hi k fuel cnt s g.
Proof.
  induction fuel as [|fuel IH]; intros cnt s g Hlen.
  - destruct s; [|simpl in Hlen; lia]. simpl.
    rewrite (run_None r [] g) by done.
    destruct (below hi cnt), greedy; simpl; by destruct (if lo <=? cnt then _ else _).
  - change (rep_loop (run r) greedy lo hi k (S (S fuel)) cnt s g)
      with (let stop := if lo <=? cnt then k s g else None in
            let more :=
              if below hi cnt
              then run r s g (fun s' g' =>
                     if length s' <? length s
                     then rep_loop (run r) greedy lo hi k (S fuel) (S cnt) s' g'
                     else None)
              else None in
            if greedy then or_else more stop else or_else stop more).
    change (rep_loop (run r) greedy lo hi k (S fuel) cnt s g)
      with (let stop := if lo <=? cnt then k s g else None in
            let more :=
              if below hi cnt
              then run r s g (fun s' g' =>
                     if length s' <? length s
                     then rep_loop (run r) greedy lo hi k fuel (S cnt) s' g'
                     else None)
              else None in
            if greedy then or_else more stop else or_else stop more).
    cbv zeta.
    rewrite (run_ext r s g _ (fun s' g' =>
               if length s' <? length s
               then rep_loop (run r) greedy lo hi k fuel (S cnt) s' g'
               else None)); [done|].
    intros s' g'. destruct (length s' <? length s) eqn:Hlt; [|done].
    apply Nat.ltb_lt in Hlt. apply IH. lia.
Qed.

(** The scan of [re.findall] has all the fuel it can use as well. *)
Lemma matches_from_fuel r fuel : forall s,
  length s < fuel -> matches_from (S fuel) r s = matches_from fuel r s.
Proof.
  induction fuel as [|fuel IH]; intros s Hlen; [lia|].
  change (matches_from (S (S fuel)) r s)
    with (match re_match r s with
          | Some m =>
              if length (m_rest m) <? length s
              then m :: matches_from (S fuel) r (m_rest m)
              else m :: match s with
                        | [] => []
                        | _ :: s' => matches_from (S fuel) r s'
                        end
          | None =>
              match s with
              | [] => []
              | _ :: s' => matches_from (S fuel) r s'
              end
          end).
  change (matches_from (S fuel) r s)
    with (match re_match r s with
          | Some m =>
              if length (m_rest m) <? length s
              then m :: matches_from fuel r (m_rest m)
              else m :: match s with
                        | [] => []
                        | _ :: s' => matches_from fuel r s'
                        end
          | None =>
              match s with
              | [] => []
              | _ :: s' => matches_from fuel r s'
              end
          end).
  assert (Htail : match s with
                  | [] => []
                  | _ :: s' => matches_from (S fuel) r s'
                  end
                  = match s with
                    | [] => []
                    | _ :: s' => matches_from fuel r s'
                    end).
  { destruct s as [|c s']; [done|]. apply IH. simpl in Hlen. lia. }
  destruct (re_match r s) as [m|]; [|exact Htail].
  destruct (length (m_rest m) <? length s) eqn:Hlt; [|by rewrite Htail].
  apply Nat.ltb_lt in Hlt. rewrite IH by lia. done.
Qed.

(** ** Whitespace normalisation *)

(** The greedy loop of [\s+] (or [\s*]) followed by nothing: it takes the
    whole run of blanks. *)
Lemma rep_loop_ws lo fuel : forall cnt s g,
  length s <= fuel ->
  rep_loop (run ws) true lo None (fun s' g' => Some (g', s')) fuel cnt s g
  = if lo <=? cnt + (length s - length (lstrip s))
    then Some (g, lstrip s) else None.
Proof.
  induction fuel as [|fuel IH]; intros cnt s g Hlen.
  - destruct s; [|simpl in Hlen; lia]. simpl. by rewrite Nat.add_0_r.
  - destruct s as [|c s].
    + simpl. by rewrite Nat.add_0_r.
    + cbn [rep_loop below run ws]. destruct (is_space c) eqn:Hc.
      * replace (length s <? length (c :: s)) with true
          by (symmetry; apply Nat.ltb_lt; simpl; lia).
        rewrite IH by (simpl in Hlen; lia).
        cbn [lstrip]. rewrite Hc.
        assert (Hle : length (lstrip s) <= length s).
        { clear. induction s as [|x s IHs]; simpl; [done|].
          destruct (is_space x); simpl; lia. }
        replace (cnt + (length (c :: s) - length (lstrip s)))
          with (S cnt + (length s - length (lstrip s))) by (simpl; lia).
        destruct (lo <=? S cnt + (length s - length (lstrip s))) eqn:Hlo; [done|].
        simpl. apply Nat.leb_gt in Hlo.
        destruct (lo <=? cnt) eqn:Hlo'; [|done]. apply Nat.leb_le in Hlo'. lia.
      * cbn [lstrip or_else]. rewrite Hc.
        replace (length (c :: s) - length (c :: s)) with 0 by lia.
        by rewrite Nat.add_0_r.
Qed.

Lemma lstrip_length s : length (lstrip s) <= length s.
Proof.
  induction s as [|x s IH]; simpl; [done|]. destruct (is_space x); simpl; lia.
Qed.

(** [re.match(r"\s+", s)] *)
Lemma re_match_ws_plus s :
  re_match (plus ws) s
  = match s with
    | c :: s' =>
        if is_space c
        then Some (MatchObj (take (length s - length (lstrip s')) s) ∅ (lstrip s'))
        else None
    | [] => None
    end.
Proof.
  unfold re_match, plus. cbn [run]. rewrite rep_loop_ws by done.
  destruct s as [|c s]; [done|]. cbn [lstrip]. destruct (is_space c) eqn:Hc.
  - pose proof (lstrip_length s).
    replace (1 <=? 0 + (length (c :: s) - length (lstrip s))) with true; [done|].
    symmetry. apply Nat.leb_le. simpl. lia.
  - by replace (length (c :: s) - length (c :: s)) with 0 by lia.
Qed.

Lemma squeeze_true_lstrip s : squeeze true s = squeeze false (lstrip s).
Proof.
  induction s as [|c s IH]; simpl; [done|].
  destruct (is_space c) eqn:Hc; [done|]. simpl. by rewrite Hc.
Qed.

Lemma sub_from_ws fuel : forall s,
  length s < fuel -> sub_from fuel (plus ws) " " s = squeeze false s.
Proof.
  induction fuel as [|fuel IH]; intros s Hlen; [lia|].
  cbn [sub_from]. rewrite re_match_ws_plus.
  destruct s as [|c s]; [done|]. simpl in Hlen.
  destruct (is_space c) eqn:Hc; cbn [m_rest squeeze]; rewrite Hc.
  - pose proof (lstrip_length s).
    replace (length (lstrip s) <? length (c :: s)) with true
      by (symmetry; apply Nat.ltb_lt; simpl; lia).
    rewrite IH by lia. by rewrite squeeze_true_lstrip.
  - rewrite IH by lia. done.
Qed.

(** [re.sub(r"\s+", " ", s)] replaces every run of blanks by one space. *)
Lemma re_sub_ws s : re_sub (plus ws) " " s = squeeze false s.
Proof. unfold re_sub. apply sub_from_ws. lia. Qed.

Lemma normalize_ws_squeeze s : normalize_ws s = strip (squeeze false s).
Proof. destruct s as [|c s]; [done|]. unfold normalize_ws. by rewrite re_sub_ws. Qed.

(** *** Stripping *)

Lemma rstrip_snoc_blank s c : is_space c = true -> rstrip (s ++ [c]) = rstrip s.
Proof. intros Hc. unfold rstrip. rewrite rev_unit. simpl. by rewrite Hc. Qed.

Lemma rstrip_snoc_solid s c : is_space c = false -> rstrip (s ++ [c]) = s ++ [c].
Proof.
  intros Hc. unfold rstrip. rewrite rev_unit. simpl. rewrite Hc. simpl.
  by rewrite rev_involutive.
Qed.

Lemma lstrip_app_solid a x b :
  is_space x = false -> lstrip (a ++ x :: b) = lstrip (a ++ [x]) ++ b.
Proof.
  intros Hx. induction a as [|c a IH]; simpl.
  - by rewrite Hx.
  - destruct (is_space c); [done|]. simpl. by rewrite <- app_assoc.
Qed.

Lemma lstrip_snoc_solid a x :
  is_space x = false -> exists a', lstrip (a ++ [x]) = a' ++ [x].
Proof.
  intros Hx. induction a as [|c a IH]; simpl.
  - rewrite Hx. by exists [].
  - destruct (is_space c); [done|]. by exists (c :: a).
Qed.

Lemma rstrip_app_solid a x b :
  is_space x = false -> rstrip (a ++ x :: b) = a ++ rstrip (x :: b).
Proof.
  intros Hx. unfold rstrip.
  rewrite rev_app_distr. simpl rev at 1.
  rewrite <- app_assoc. simpl. rewrite lstrip_app_solid by done.
  rewrite rev_app_distr, rev_involutive. done.
Qed.

Lemma lstrip_blank s : blank s -> lstrip s = [].
Proof. induction 1 as [|c s Hc _ IH]; simpl; [done|]. by rewrite Hc. Qed.

(** *** Squeezing *)

Lemma squeeze_app_solid b a x s :
  is_space x = false ->
  squeeze b (a ++ x :: s) = squeeze b a ++ x :: squeeze false s.
Proof.
  intros Hx. revert b. induction a as [|c a IH]; intros b; simpl.
  - by rewrite Hx.
  - destruct (is_space c); [destruct b|]; by rewrite IH.
Qed.

Lemma squeeze_true_blank sp : blank sp -> squeeze true sp = [].
Proof. induction 1 as [|c sp Hc _ IH]; simpl; [done|]. by rewrite Hc. Qed.

Lemma squeeze_false_blank sp :
  blank sp -> sp <> [] -> squeeze false sp = " ".
Proof.
  intros Hsp Hne. destruct Hsp as [|c sp Hc Hsp]; [done|]. simpl.
  by rewrite Hc, squeeze_true_blank.
Qed.

Lemma squeeze_solid u : solid u -> forall b, squeeze b u = u.
Proof. induction 1 as [|c u Hc _ IH]; intros b; simpl; [done|]. by rewrite Hc, IH. Qed.

(** A text with a non-blank character that ends with a blank: its last
    non-blank character, then blanks. *)
Lemma last_solid_char s : forall c,
  is_space c = true -> (exists x, x ∈ s /\ is_space x = false) ->
  exists s0 x sp,
    s ++ [c] = s0 ++ x :: sp /\ is_space x = false /\ blank sp /\ sp <> [].
Proof.
  induction s as [|y s IH] using rev_ind; intros c Hc (x & Hx & Hsx).
  - by apply elem_of_nil in Hx.
  - destruct (is_space y) eqn:Hy.
    + destruct (IH y Hy) as (s0 & x' & sp & Heq & Hx' & Hsp & Hne).
      { exists x. split; [|done].
        apply elem_of_app in Hx as [Hx|Hx]; [done|].
        apply list_elem_of_singleton in Hx. congruence. }
      exists s0, x', (sp ++ [c]). rewrite Heq, <- app_assoc. simpl.
      repeat split; auto.
      * apply Forall_app. split; [done|]. by apply Forall_singleton.
      * by destruct sp.
    + exists s, y, [c]. rewrite <- app_assoc. simpl.
      repeat split; auto. by apply Forall_singleton.
Qed.

(** A text with a non-blank character that begins with a blank: blanks,
    then its first non-blank character. *)
Lemma first_solid_char c s :
  is_space c = true -> (exists x, x ∈ s /\ is_space x = false) ->
  exists sp x s0,
    c :: s = sp ++ x :: s0 /\ is_space x = false /\ blank sp /\ sp <> [].
Proof.
  intros Hc. induction s as [|y s IH]; intros (x & Hx & Hsx).
  - by apply elem_of_nil in Hx.
  - destruct (is_space y) eqn:Hy.
    + destruct IH as (sp & x' & s0 & Heq & Hx' & Hsp & Hne).
      { exists x. split; [|done].
        apply elem_of_cons in Hx as [->|Hx]; [congruence|done]. }
      destruct sp as [|c' sp]; [done|]. injection Heq as <- Heq.
      exists (c :: y :: sp), x', s0. rewrite Heq. simpl.
      apply Forall_cons in Hsp as [_ Hsp].
      repeat split; auto. by repeat constructor.
    + exists [c], y, s. repeat split; auto. by apply Forall_singleton.
Qed.

Lemma split_ws_from_word u : forall cur s,
  Forall (fun c => is_space c = false) u ->
  split_ws_from cur (u ++ s) = split_ws_from (rev u ++ cur) s.
Proof.
  induction u as [|c u IH]; intros cur s Hu; simpl; [done|].
  apply Forall_cons in Hu as [Hc Hu]. rewrite Hc, IH by done.
  by rewrite <- app_assoc.
Qed.

Lemma split_ws_from_blank v : forall s,
  Forall (fun c => is_space c = true) v ->
  split_ws_from [] (v ++ s) = split_ws_from [] s.
Proof.
  induction v as [|c v IH]; intros s Hv; simpl; [done|].
  apply Forall_cons in Hv as [Hc Hv]. by rewrite Hc, IH.
Qed.

Lemma split_ws_from_gap cur v s :
  cur <> [] -> v <> [] -> Forall (fun c => is_space c = true) v ->
  split_ws_from cur (v ++ s) = rev cur :: split_ws_from [] s.
Proof.
  intros Hcur Hv Hsp. destruct v as [|c v]; [done|].
  apply Forall_cons in Hsp as [Hc Hsp]. simpl. rewrite Hc.
  rewrite bool_decide_eq_false_2 by done. by rewrite split_ws_from_blank.
Qed.

Lemma split_ws_from_blank_end sp : forall cur,
  blank sp ->
  split_ws_from cur sp = if bool_decide (cur = []) then [] else [rev cur].
Proof.
  induction sp as [|c sp IH]; intros cur Hsp; simpl; [done|].
  apply Forall_cons in Hsp as [Hc Hsp]. rewrite Hc.
  rewrite (IH [] Hsp). simpl. by destruct (bool_decide (cur = [])).
Qed.

Lemma split_ws_from_app_blank s : forall cur sp,
  blank sp -> split_ws_from cur (s ++ sp) = split_ws_from cur s.
Proof.
  induction s as [|c s IH]; intros cur sp Hsp; simpl.
  - by apply split_ws_from_blank_end.
  - by rewrite !IH.
Qed.

Lemma lstrip_blank_prefix s : exists sp, blank sp /\ s = sp ++ lstrip s.
Proof.
  induction s as [|c s (sp & Hsp & IH)]; simpl.
  - exists []. split; [constructor|done].
  - destruct (is_space c) eqn:Hc.
    + exists (c :: sp). split; [by constructor|]. simpl. by rewrite <- IH.
    + exists []. split; [constructor|done].
Qed.

Lemma rstrip_blank_suffix s : exists sp, blank sp /\ s = rstrip s ++ sp.
Proof.
  destruct (lstrip_blank_prefix (rev s)) as (sp & Hsp & Heq).
  exists (rev sp). split.
  - by apply Forall_rev.
  - unfold rstrip. rewrite <- rev_app_distr, <- Heq. by rewrite rev_involutive.
Qed.

Lemma split_ws_lstrip s : split_ws (lstrip s) = split_ws s.
Proof.
  destruct (lstrip_blank_prefix s) as (sp & Hsp & Heq).
  rewrite Heq at 2. unfold split_ws. by rewrite split_ws_from_blank.
Qed.

Lemma split_ws_rstrip s : split_ws (rstrip s) = split_ws s.
Proof.
  destruct (rstrip_blank_suffix s) as (sp & Hsp & Heq).
  rewrite Heq at 2. unfold split_ws. by rewrite split_ws_from_app_blank.
Qed.

Lemma split_ws_from_squeeze s : forall b cur,
  (b = true -> cur = []) ->
  split_ws_from cur (squeeze b s) = split_ws_from cur s.
Proof.
  induction s as [|c s IH]; intros b cur Hb; simpl; [done|].
  destruct (is_space c) eqn:Hc.
  - destruct b.
    + rewrite (Hb eq_refl). simpl. by apply IH.
    + simpl. by rewrite (IH true []).
  - simpl. rewrite Hc. by apply IH.
Qed.

(** Normalising a text does not change its words. *)
Lemma split_ws_normalize s : split_ws (normalize_ws s) = split_ws s.
Proof.
  rewrite normalize_ws_squeeze. unfold strip.
  rewrite split_ws_rstrip, split_ws_lstrip. unfold split_ws.
  by apply split_ws_from_squeeze.
Qed.

(** ** Location and date split *)

Lemma split1_first sep l r :
  sep ∉ l -> split1 sep (l ++ sep :: r) = [l; r].
Proof.
  induction l as [|c l IH]; intros Hl; simpl.
  - by rewrite bool_decide_eq_true_2.
  - apply not_elem_of_cons in Hl as [Hc Hl].
    rewrite bool_decide_eq_false_2 by congruence. by rewrite IH.
Qed.

Lemma contains_char_app c l r : contains_char c (l ++ c :: r) = true.
Proof.
  unfold contains_char. rewrite existsb_app. simpl.
  rewrite bool_decide_eq_true_2 by done. by rewrite orb_true_r.
Qed.

Lemma normalize_ws_left l0 x sp :
  is_space x = false -> blank sp -> sp <> [] ->
  exists a,
    lstrip (squeeze false l0 ++ [x]) = a ++ [x]
    /\ normalize_ws (l0 ++ x :: sp) = a ++ [x].
Proof.
  intros Hx Hsp Hne.
  destruct (lstrip_snoc_solid (squeeze false l0) x Hx) as (a & Ha).
  exists a. split; [done|].
  rewrite normalize_ws_squeeze, squeeze_app_solid, (squeeze_false_blank sp) by done.
  unfold strip. rewrite lstrip_app_solid, Ha by done.
  change (list_ascii_of_string " ") with [" "%char].
  rewrite rstrip_snoc_blank by done. by rewrite rstrip_snoc_solid.
Qed.

Lemma normalize_ws_right sp y r0 :
  is_space y = false -> blank sp -> sp <> [] ->
  squeeze false (sp ++ y :: r0) = " "%char :: y :: squeeze false r0
  /\ normalize_ws (sp ++ y :: r0) = rstrip (y :: squeeze false r0).
Proof.
  intros Hy Hsp Hne.
  assert (Hsq : squeeze false (sp ++ y :: r0) = " "%char :: y :: squeeze false r0).
  { rewrite squeeze_app_solid, (squeeze_false_blank sp) by done. done. }
  split; [done|].
  rewrite normalize_ws_squeeze, Hsq. unfold strip. simpl. by rewrite Hy.
Qed.

Lemma pipe_not_space : is_space "|" = false.
Proof. reflexivity. Qed.

Lemma rejoin_spaced_pipe l c1 c2 r :
  is_space c1 = true -> is_space c2 = true ->
  (exists x, x ∈ l /\ is_space x = false) ->
  (exists y, y ∈ r /\ is_space y = false) ->
  normalize_ws (l ++ [c1]) ++ " | " ++ normalize_ws (c2 :: r)
  = normalize_ws ((l ++ [c1]) ++ "|"%char :: c2 :: r).
Proof.
  intros Hc1 Hc2 Hl Hr.
  destruct (last_solid_char l c1 Hc1 Hl) as (l0 & x & sp & -> & Hx & Hsp & Hne).
  destruct (first_solid_char c2 r Hc2 Hr) as (sp' & y & r0 & -> & Hy & Hsp' & Hne').
  destruct (normalize_ws_left l0 x sp Hx Hsp Hne) as (a & Ha & ->).
  destruct (normalize_ws_right sp' y r0 Hy Hsp' Hne') as (Hsq & ->).
  rewrite (normalize_ws_squeeze ((l0 ++ x :: sp) ++ _)).
  rewrite (squeeze_app_solid _ (l0 ++ x :: sp)) by apply pipe_not_space.
  rewrite Hsq, squeeze_app_solid, (squeeze_false_blank sp) by done.
  unfold strip.
  rewrite <- (app_assoc (squeeze false l0)). simpl.
  rewrite lstrip_app_solid, Ha by done.
  change (list_ascii_of_string " | ") with [" "%char; "|"%char; " "%char].
  replace ((a ++ [x]) ++ " "%char :: "|"%char :: " "%char :: y :: squeeze false r0)
    with (((a ++ [x]) ++ [" "%char; "|"%char; " "%char]) ++ y :: squeeze false r0)
    by (by rewrite <- !app_assoc).
  rewrite rstrip_app_solid by done. by rewrite <- !app_assoc.
Qed.

Lemma lstrip_snoc a x :
  is_space x = false -> lstrip (a ++ [x]) = lstrip a ++ [x].
Proof.
  intros Hx. induction a as [|c a IH]; simpl.
  - by rewrite Hx.
  - by destruct (is_space c).
Qed.

Lemma rstrip_cons x b :
  is_space x = false -> rstrip (x :: b) = x :: rstrip b.
Proof.
  intros Hx. unfold rstrip. simpl. rewrite lstrip_snoc by done.
  by rewrite rev_unit.
Qed.

Lemma strip_around a x b :
  is_space x = false -> strip (a ++ x :: b) = lstrip a ++ x :: rstrip b.
Proof.
  intros Hx. unfold strip.
  rewrite lstrip_app_solid, lstrip_snoc, <- app_assoc by done. simpl.
  by rewrite rstrip_app_solid, rstrip_cons.
Qed.

(** The normal form of a text with a pipe, in terms of its two sides. *)
Lemma normalize_ws_pipe l r :
  normalize_ws (l ++ "|"%char :: r)
  = lstrip (squeeze false l) ++ "|"%char :: rstrip (squeeze false r).
Proof.
  rewrite normalize_ws_squeeze, squeeze_app_solid by apply pipe_not_space.
  apply strip_around, pipe_not_space.
Qed.

Lemma elem_of_squeeze c s : forall b, c ∈ squeeze b s -> c ∈ s \/ c = " "%char.
Proof.
  induction s as [|x s IH]; intros b Hc; simpl in Hc.
  - by apply elem_of_nil in Hc.
  - destruct (is_space x); [destruct b|].
    + apply IH in Hc as [?|?]; [left; by right|by right].
    + apply elem_of_cons in Hc as [->|Hc]; [by right|].
      apply IH in Hc as [?|?]; [left; by right|by right].
    + apply elem_of_cons in Hc as [->|Hc]; [left; by left|].
      apply IH in Hc as [?|?]; [left; by right|by right].
Qed.

Lemma elem_of_lstrip c s : c ∈ lstrip s -> c ∈ s.
Proof.
  destruct (lstrip_blank_prefix s) as (sp & _ & Heq). intros Hc.
  rewrite Heq. apply elem_of_app. by right.
Qed.

Lemma elem_of_rstrip c s : c ∈ rstrip s -> c ∈ s.
Proof.
  destruct (rstrip_blank_suffix s) as (sp & _ & Heq). intros Hc.
  rewrite Heq. apply elem_of_app. by left.
Qed.

Lemma split_at_first (x : ascii) a a' b b' :
  x ∉ a -> x ∉ a' -> a ++ x :: b = a' ++ x :: b' -> a = a' /\ b = b'.
Proof.
  revert a'. induction a as [|c a IH]; intros [|c' a'] Ha Ha' Heq; simpl in Heq.
  - by injection Heq as ->.
  - injection Heq as -> _. exfalso. apply Ha'. by left.
  - injection Heq as -> _. exfalso. apply Ha. by left.
  - injection Heq as -> Heq.
    apply not_elem_of_cons in Ha as [_ Ha]. apply not_elem_of_cons in Ha' as [_ Ha'].
    destruct (IH a' Ha Ha' Heq) as [-> ->]. done.
Qed.

Lemma blank_or_solid_char s :
  blank s \/ exists x, x ∈ s /\ is_space x = false.
Proof.
  induction s as [|c s [IH|(x & Hx & Hsx)]].
  - left. constructor.
  - destruct (is_space c) eqn:Hc; [left; by constructor|].
    right. exists c. split; [by left|done].
  - right. exists x. split; [by right|done].
Qed.

Lemma squeeze_blank s : blank s -> forall b, blank (squeeze b s).
Proof.
  induction 1 as [|c s Hc _ IH]; intros b; simpl; [constructor|].
  rewrite Hc. destruct b; [apply IH|]. constructor; [reflexivity|apply IH].
Qed.

Lemma rstrip_blank s : blank s -> rstrip s = [].
Proof.
  intros Hs. unfold rstrip. rewrite lstrip_blank; [done|]. by apply Forall_rev.
Qed.

(** The left side of a pipe that rejoins well ends with a blank and is not
    all blanks. *)
Lemma left_side_shape l :
  lstrip (squeeze false l) = strip (squeeze false l) ++ [" "%char] ->
  exists l' c1, l = l' ++ [c1] /\ is_space c1 = true
                /\ exists x, x ∈ l' /\ is_space x = false.
Proof.
  intros Heq. destruct l as [|c1 l' _] using rev_ind.
  - simpl in Heq. by destruct (strip []).
  - exists l', c1. split; [done|].
    destruct (is_space c1) eqn:Hc1.
    + split; [done|]. destruct (blank_or_solid_char l') as [Hb|?]; [|done].
      exfalso. rewrite lstrip_blank in Heq.
      * by destruct (strip _).
      * apply squeeze_blank, Forall_app. split; [done|]. by apply Forall_singleton.
    + exfalso. rewrite (squeeze_app_solid false l' c1 []) in Heq by done.
      simpl in Heq. rewrite lstrip_snoc in Heq by done.
      apply app_inj_tail in Heq as [_ ->]. discriminate Hc1.
Qed.

(** The right side begins with a blank and is not all blanks. *)
Lemma right_side_shape r :
  rstrip (squeeze false r) = " "%char :: strip (squeeze false r) ->
  exists c2 r', r = c2 :: r' /\ is_space c2 = true
                /\ exists y, y ∈ r' /\ is_space y = false.
Proof.
  intros Heq. destruct r as [|c2 r']; [discriminate Heq|].
  exists c2, r'. split; [done|].
  destruct (is_space c2) eqn:Hc2.
  - split; [done|]. destruct (blank_or_solid_char r') as [Hb|?]; [|done].
    exfalso. rewrite rstrip_blank in Heq; [discriminate Heq|].
    apply squeeze_blank. by constructor.
  - exfalso. unfold strip in Heq. simpl in Heq. rewrite Hc2 in Heq. simpl in Heq.
    rewrite Hc2 in Heq. apply (f_equal length) in Heq. simpl in Heq. lia.
Qed.

Lemma rejoin_needs_spaced_pipe l r :
  "|"%char ∉ l -> "|"%char ∉ r ->
  normalize_ws l ++ " | " ++ normalize_ws r = normalize_ws (l ++ "|"%char :: r) ->
  (exists l' c1, l = l' ++ [c1] /\ is_space c1 = true
                 /\ exists x, x ∈ l' /\ is_space x = false)
  /\ (exists c2 r', r = c2 :: r' /\ is_space c2 = true
                    /\ exists y, y ∈ r' /\ is_space y = false).
Proof.
  intros Hl Hr Heq.
  rewrite normalize_ws_pipe, !normalize_ws_squeeze in Heq.
  change (list_ascii_of_string " | ") with ([" "%char] ++ "|"%char :: [" "%char]) in Heq.
  rewrite <- (app_assoc [" "%char]), app_assoc in Heq. simpl in Heq.
  assert (Hsq : "|"%char ∉ squeeze false l).
  { intros [H|H]%elem_of_squeeze; [done|discriminate H]. }
  apply split_at_first in Heq as [Hleft Hright].
  - split; [by apply left_side_shape|by apply right_side_shape].
  - intros [H|H]%elem_of_app.
    + by apply elem_of_rstrip, elem_of_lstrip in H.
    + apply list_elem_of_singleton in H. discriminate H.
  - intros H. by apply elem_of_lstrip in H.
Qed.

(** C1 (as the code has it). For an input with exactly one pipe, the split
    returns the normalised text before the pipe and the normalised text
    after it; joining the two with " | " gives the normalised input if and
    only if the pipe has a blank right before it and right after it and each
    side has a character that is not a blank. *)
Theorem split_then_rejoin (l r : str) :
  "|"%char ∉ l -> "|"%char ∉ r ->
  split_location_and_date (l ++ "|"%char :: r) = (normalize_ws l, normalize_ws r)
  /\ (rejoin (split_location_and_date (l ++ "|"%char :: r))
      = normalize_ws (l ++ "|"%char :: r)
      <-> (exists l' c1, l = l' ++ [c1] /\ is_space c1 = true
                         /\ exists x, x ∈ l' /\ is_space x = false)
          /\ (exists c2 r', r = c2 :: r' /\ is_space c2 = true
                            /\ exists y, y ∈ r' /\ is_space y = false)).
Proof.
  intros Hl Hr.
  assert (Hsplit : split_location_and_date (l ++ "|"%char :: r)
                   = (normalize_ws l, normalize_ws r)).
  { unfold split_location_and_date.
    by rewrite contains_char_app, split1_first. }
  split; [done|]. rewrite Hsplit. unfold rejoin. simpl. split.
  - by apply rejoin_needs_spaced_pipe.
  - intros [(l' & c1 & -> & Hc1 & Hl') (c2 & r' & -> & Hc2 & Hr')].
    by apply rejoin_spaced_pipe.
Qed.

Lemma split_then_rejoin_witness :
  rejoin (split_location_and_date
            ("Indian Wells " ++ "|"%char :: " March 6-16, 2025"))
  = normalize_ws ("Indian Wells " ++ "|"%char :: " March 6-16, 2025").
Proof.
  assert (Hl : "|"%char ∉ ("Indian Wells " : str)).
  { intros H. simpl in H.
    repeat (apply elem_of_cons in H as [H|H]; [discriminate H|]).
    by apply elem_of_nil in H. }
  assert (Hr : "|"%char ∉ (" March 6-16, 2025" : str)).
  { intros H. simpl in H.
    repeat (apply elem_of_cons in H as [H|H]; [discriminate H|]).
    by apply elem_of_nil in H. }
  apply (proj2 (split_then_rejoin "Indian Wells " " March 6-16, 2025" Hl Hr)).
  split.
  - exists ("Indian Wells" : str), " "%char. repeat split.
    exists "I"%char. split; [simpl; by left|reflexivity].
  - exists " "%char, ("March 6-16, 2025" : str). repeat split.
    exists "M"%char. split; [simpl; by left|reflexivity].
Defined.

(** C1 as stated fails when the pipe has no blank beside it: "a|b" is its
    own normal form, and the parts "a" and "b" join to "a | b". *)
Lemma rejoin_differs_without_blanks :
  split_location_and_date "a|b" = ("a" : str, "b" : str)
  /\ rejoin (split_location_and_date "a|b") = "a | b"
  /\ normalize_ws "a|b" = "a|b"
  /\ rejoin (split_location_and_date "a|b") <> normalize_ws "a|b".
Proof.
  repeat split; try (vm_compute; reflexivity).
  vm_compute. discriminate.
Qed.

(** ** Worked examples of the text normaliser *)

(** C5. On "Indian Wells | March 6-16, 2025" the split gives the location
    "Indian Wells" and the date text "March 6-16, 2025", and the date-range
    parser turns that date text into the start "March 6, 2025" and the end
    "March 16, 2025". *)
Theorem indian_wells_example :
  split_location_and_date "Indian Wells | March 6-16, 2025"
    = ("Indian Wells" : str, "March 6-16, 2025" : str)
  /\ parse_date_range (split_location_and_date "Indian Wells | March 6-16, 2025").2
    = ("March 6, 2025" : str, "March 16, 2025" : str).
Proof. split; vm_compute; reflexivity. Qed.

(** C6. On "27 December, 2024 - 5 January, 2025" the formatted-date parser
    splits at the first hyphen and normalises each side on its own: the
    start is "December 27, 2024" and the end is "January 5, 2025".  A day
    written with a leading zero loses it. *)
Theorem formatted_range_example :
  parse_formatted_date_range "27 December, 2024 - 5 January, 2025"
    = ("December 27, 2024" : str, "January 5, 2025" : str)
  /\ map normalize_ws (split1 "-" "27 December, 2024 - 5 January, 2025")
    = ["27 December, 2024" : str; "5 January, 2025" : str]
  /\ normalize_date_token "27 December, 2024" = "December 27, 2024"
  /\ normalize_date_token "5 January, 2025" = "January 5, 2025"
  /\ normalize_date_token "05 January, 2025" = "January 5, 2025"
  /\ normalize_date_token "January 05, 2025" = "January 5, 2025".
Proof. repeat split; vm_compute; reflexivity. Qed.

(** The five forms that [parse_date_range] tells apart, in its order. *)
Example parse_date_range_forms :
  parse_date_range "March 6-16, 2025"
    = ("March 6, 2025" : str, "March 16, 2025" : str)
  /\ parse_date_range "March 26 - April 6, 2025"
    = ("March 26, 2025" : str, "April 6, 2025" : str)
  /\ parse_date_range "2025.03.06 - 2025.03.16"
    = ("2025.03.06" : str, "2025.03.16" : str)
  /\ parse_date_range "6.3.2025 - 16.3.2025"
    = ("6.3.2025" : str, "16.3.2025" : str)
  /\ parse_date_range "from March 6, 2025 to 16.3.2025"
    = ("March 6, 2025" : str, "16.3.2025" : str)
  /\ parse_date_range "to be announced" = ("to be announced" : str, []).
Proof. repeat split; vm_compute; reflexivity. Qed.

(** ** Date ranges *)

Lemma count_app p a b : count p (a ++ b) = count p a + count p b.
Proof. induction a as [|c a IH]; simpl; [done|]. rewrite IH. lia. Qed.

Lemma count_pos p s c : c ∈ s -> p c = true -> 1 <= count p s.
Proof.
  induction s as [|x s IH]; intros Hin Hc.
  - by apply elem_of_nil in Hin.
  - simpl. apply elem_of_cons in Hin as [<-|Hin]; [rewrite Hc; lia|].
    specialize (IH Hin Hc). lia.
Qed.

Lemma count_none p s : Forall (fun c => p c = false) s -> count p s = 0.
Proof. induction 1 as [|c s Hc _ IH]; simpl; [done|]. by rewrite Hc, IH. Qed.

(** The scan of [re.findall] finds at most as many matches as the text has
    characters of a class that every match must contain. *)
Lemma matches_from_count r p :
  (forall w g g', matches r w g g' -> exists c, c ∈ w /\ p c = true) ->
  forall fuel s, length (matches_from fuel r s) <= count p s.
Proof.
  intros Hneed. induction fuel as [|fuel IH]; intros s; simpl; [lia|].
  destruct (re_match r s) as [m|] eqn:Hm.
  - apply re_match_sound in Hm as [Hs Hm].
    apply Hneed in Hm as (c & Hc & Hp).
    pose proof (count_pos p _ c Hc Hp) as Hpos.
    assert (Hcount : count p s = count p (m_text m) + count p (m_rest m))
      by (by rewrite Hs at 1; rewrite count_app).
    destruct (length (m_rest m) <? length s) eqn:Hlt; simpl.
    + specialize (IH (m_rest m)). lia.
    + apply Nat.ltb_ge in Hlt. rewrite Hs, length_app in Hlt.
      destruct (m_text m); [by apply elem_of_nil in Hc|simpl in Hlt; lia].
  - destruct s as [|c s]; simpl; [lia|]. specialize (IH s).
    destruct (p c); lia.
Qed.

Lemma month_days_has_dash w g g' :
  matches re_month_days w g g' -> "-"%char ∈ w.
Proof.
  unfold re_month_days. cbn [cat]. intros H.
  do 3 (apply matches_seq_inv in H as (? & ? & ? & -> & _ & H)).
  apply matches_seq_inv in H as (? & ? & ? & -> & Hc & _).
  apply matches_chr_inv in Hc as (c & -> & Hc & _).
  apply bool_decide_eq_true in Hc as ->.
  rewrite !elem_of_app, elem_of_cons. tauto.
Qed.

Lemma two_months_has_dash w g g' :
  matches re_two_months w g g' -> "-"%char ∈ w.
Proof.
  unfold re_two_months. cbn [cat]. intros H.
  do 4 (apply matches_seq_inv in H as (? & ? & ? & -> & _ & H)).
  apply matches_seq_inv in H as (? & ? & ? & -> & Hc & _).
  apply matches_chr_inv in Hc as (c & -> & Hc & _).
  apply bool_decide_eq_true in Hc as ->.
  rewrite !elem_of_app, elem_of_cons. tauto.
Qed.

Lemma ymd_has_dot w g g' : matches re_ymd w g g' -> "."%char ∈ w.
Proof.
  unfold re_ymd. cbn [cat]. intros H.
  apply matches_seq_inv in H as (? & ? & ? & -> & _ & H).
  apply matches_seq_inv in H as (? & ? & ? & -> & Hc & _).
  apply matches_chr_inv in Hc as (c & -> & Hc & _).
  apply bool_decide_eq_true in Hc as ->.
  rewrite !elem_of_app, elem_of_cons. tauto.
Qed.

Lemma dmy_has_dot w g g' : matches re_dmy w g g' -> "."%char ∈ w.
Proof.
  unfold re_dmy. cbn [cat]. intros H.
  apply matches_seq_inv in H as (? & ? & ? & -> & _ & H).
  apply matches_seq_inv in H as (? & ? & ? & -> & Hc & _).
  apply matches_chr_inv in Hc as (c & -> & Hc & _).
  apply bool_decide_eq_true in Hc as ->.
  rewrite !elem_of_app, elem_of_cons. tauto.
Qed.

Lemma ymd_range_has_dot w g g' :
  matches re_ymd_range w g g' -> "."%char ∈ w.
Proof.
  unfold re_ymd_range. cbn [cat]. intros H.
  apply matches_seq_inv in H as (? & ? & ? & -> & Hg & _).
  apply matches_grp_inv in Hg as (? & Hg & _).
  apply ymd_has_dot in Hg. rewrite elem_of_app. tauto.
Qed.

Lemma dmy_range_has_dot w g g' :
  matches re_dmy_range w g g' -> "."%char ∈ w.
Proof.
  unfold re_dmy_range. cbn [cat]. intros H.
  apply matches_seq_inv in H as (? & ? & ? & -> & Hg & _).
  apply matches_grp_inv in Hg as (? & Hg & _).
  apply dmy_has_dot in Hg. rewrite elem_of_app. tauto.
Qed.

Lemma month_day_year_has_comma w g g' :
  matches re_month_day_year w g g' -> ","%char ∈ w.
Proof.
  unfold re_month_day_year. cbn [cat]. intros H.
  do 3 (apply matches_seq_inv in H as (? & ? & ? & -> & _ & H)).
  apply matches_seq_inv in H as (? & ? & ? & -> & Hc & _).
  apply matches_chr_inv in Hc as (c & -> & Hc & _).
  apply bool_decide_eq_true in Hc as ->.
  rewrite !elem_of_app, elem_of_cons. tauto.
Qed.

Lemma date_token_has_comma_or_dot w g g' :
  matches re_date_token w g g' -> exists c, c ∈ w /\ is_comma_or_dot c = true.
Proof.
  unfold re_date_token. cbn [alt]. intros H.
  apply matches_grp_inv in H as (g1 & H & _).
  apply matches_alt_inv in H as [H|H]; [|apply matches_alt_inv in H as [H|H]].
  - apply month_day_year_has_comma in H. by exists ","%char.
  - apply dmy_has_dot in H. by exists "."%char.
  - apply ymd_has_dot in H. by exists "."%char.
Qed.

Lemma alpha_plain c :
  is_alpha c = true ->
  is_space c = false /\ is_comma_or_dot c = false
  /\ c <> "-"%char /\ c <> "."%char.
Proof.
  destruct c as [[] [] [] [] [] [] [] []]; vm_compute; intros H;
    first [discriminate H | repeat split; discriminate].
Qed.

Lemma digit_plain c :
  is_digit c = true ->
  is_space c = false /\ is_comma_or_dot c = false
  /\ c <> "-"%char /\ c <> "."%char.
Proof.
  destruct c as [[] [] [] [] [] [] [] []]; vm_compute; intros H;
    first [discriminate H | repeat split; discriminate].
Qed.

Section CanonicalDate.

Variables mon d y : str.
Hypothesis mon_alpha : Forall (fun c => is_alpha c = true) mon.
Hypothesis mon_long : 3 <= length mon.
Hypothesis d_digits : Forall (fun c => is_digit c = true) d.
Hypothesis d_short : 1 <= length d <= 2.
Hypothesis y_digits : Forall (fun c => is_digit c = true) y.
Hypothesis y_four : length y = 4.

Let s : str := canonical_date mon d y.

Lemma canonical_unfold : s = mon ++ " "%char :: d ++ ","%char :: " "%char :: y.
Proof. reflexivity. Qed.

Lemma mon_solid : solid mon.
Proof. eapply Forall_impl; [exact mon_alpha|]. intros c Hc. by apply alpha_plain. Qed.

Lemma d_solid : solid d.
Proof. eapply Forall_impl; [exact d_digits|]. intros c Hc. by apply digit_plain. Qed.

Lemma y_solid : solid y.
Proof. eapply Forall_impl; [exact y_digits|]. intros c Hc. by apply digit_plain. Qed.

Lemma squeeze_solid_app b u t :
  solid u -> u <> [] -> squeeze b (u ++ t) = u ++ squeeze false t.
Proof.
  intros Hu Hne. revert b. induction Hu as [|c u Hc Hu IH]; intros b; [done|].
  simpl. rewrite Hc. f_equal. destruct u as [|c' u]; [done|]. by apply IH.
Qed.

Lemma canonical_squeeze : squeeze false s = s.
Proof.
  rewrite canonical_unfold.
  assert (mon <> []) by (intros E; rewrite E in mon_long; simpl in mon_long; lia).
  assert (d <> []) by (intros E; rewrite E in d_short; simpl in d_short; lia).
  rewrite squeeze_solid_app by auto using mon_solid. simpl.
  rewrite squeeze_solid_app by auto using d_solid. simpl.
  by rewrite (squeeze_solid y y_solid).
Qed.

Lemma canonical_strip : strip s = s.
Proof.
  rewrite canonical_unfold. unfold strip.
  destruct mon as [|c m] eqn:Hmon; [simpl in mon_long; lia|].
  apply Forall_cons in mon_alpha as [Hc _]. apply alpha_plain in Hc as (Hc & _).
  simpl. rewrite Hc.
  destruct y as [|y1 [|y2 [|y3 [|y4 [|? ?]]]]] eqn:Hy; try discriminate y_four.
  assert (Hy4 : is_space y4 = false).
  { do 3 (apply Forall_cons in y_digits as [_ y_digits]).
    apply Forall_cons in y_digits as [H4 _].
    by apply digit_plain in H4 as (? & _). }
  replace (c :: m ++ " "%char :: d ++ ","%char :: " "%char :: [y1; y2; y3; y4])
    with ((c :: m ++ " "%char :: d ++ ","%char :: " "%char :: [y1; y2; y3]) ++ [y4]).
  - by apply rstrip_snoc_solid.
  - simpl. f_equal. rewrite <- app_assoc. simpl. f_equal. f_equal.
    by rewrite <- app_assoc.
Qed.

Lemma canonical_normal : normalize_ws s = s.
Proof. by rewrite normalize_ws_squeeze, canonical_squeeze, canonical_strip. Qed.

Lemma canonical_no_dash_no_dot : ("-"%char ∉ s) /\ ("."%char ∉ s).
Proof.
  rewrite canonical_unfold.
  assert (Hmon : forall c, c ∈ mon -> c <> "-"%char /\ c <> "."%char).
  { intros c Hc. eapply Forall_forall in mon_alpha; [|exact Hc].
    by apply alpha_plain in mon_alpha as (_ & _ & ? & ?). }
  assert (Hdig : forall c, c ∈ d \/ c ∈ y -> c <> "-"%char /\ c <> "."%char).
  { intros c [Hc|Hc]; [eapply Forall_forall in d_digits|eapply Forall_forall in y_digits];
      try exact Hc.
    - by apply digit_plain in d_digits as (_ & _ & ? & ?).
    - by apply digit_plain in y_digits as (_ & _ & ? & ?). }
  split; intros Hin;
    apply elem_of_app in Hin as [Hin|Hin]; try (apply Hmon in Hin; tauto);
    apply elem_of_cons in Hin as [Hin|Hin]; try discriminate Hin;
    apply elem_of_app in Hin as [Hin|Hin]; try (specialize (Hdig _ (or_introl Hin)); tauto);
    apply elem_of_cons in Hin as [Hin|Hin]; try discriminate Hin;
    apply elem_of_cons in Hin as [Hin|Hin]; try discriminate Hin;
    specialize (Hdig _ (or_intror Hin)); tauto.
Qed.

Lemma canonical_one_comma : count is_comma_or_dot s = 1.
Proof.
  rewrite canonical_unfold.
  assert (Hmon : count is_comma_or_dot mon = 0).
  { apply count_none. eapply Forall_impl; [exact mon_alpha|].
    intros c Hc. by apply alpha_plain in Hc as (_ & ? & _). }
  assert (Hd : count is_comma_or_dot d = 0).
  { apply count_none. eapply Forall_impl; [exact d_digits|].
    intros c Hc. by apply digit_plain in Hc as (_ & ? & _). }
  assert (Hy : count is_comma_or_dot y = 0).
  { apply count_none. eapply Forall_impl; [exact y_digits|].
    intros c Hc. by apply digit_plain in Hc as (_ & ? & _). }
  rewrite count_app. simpl. rewrite count_app. simpl. rewrite Hmon, Hd, Hy.
  reflexivity.
Qed.

Lemma canonical_no_range r (c : ascii) :
  (forall w g g', matches r w g g' -> c ∈ w) -> c ∉ s -> re_match r s = None.
Proof.
  intros Hneed Hc. destruct (re_match r s) as [m|] eqn:Hm; [|done].
  apply re_match_sound in Hm as [Hs Hm]. apply Hneed in Hm.
  exfalso. apply Hc. rewrite Hs. apply elem_of_app. by left.
Qed.

Lemma canonical_parse :
  re_match re_month_days s = None
  /\ re_match re_two_months s = None
  /\ re_match re_ymd_range s = None
  /\ re_match re_dmy_range s = None
  /\ length (re_findall1 re_date_token s) <= 1
  /\ parse_date_range s = (s, []).
Proof.
  destruct canonical_no_dash_no_dot as [Hdash Hdot].
  pose proof (canonical_no_range _ _ month_days_has_dash Hdash) as H1.
  pose proof (canonical_no_range _ _ two_months_has_dash Hdash) as H2.
  pose proof (canonical_no_range _ _ ymd_range_has_dot Hdot) as H3.
  pose proof (canonical_no_range _ _ dmy_range_has_dot Hdot) as H4.
  assert (H5 : length (re_findall1 re_date_token s) <= 1).
  { unfold re_findall1. rewrite length_map, <- canonical_one_comma.
    apply matches_from_count, date_token_has_comma_or_dot. }
  repeat split; auto.
  unfold parse_date_range. cbv zeta. rewrite canonical_normal, H1, H2, H3, H4.
  assert (Hne : s <> []).
  { rewrite canonical_unfold. destruct mon; [simpl in mon_long; lia|done]. }
  destruct s as [|c t] eqn:Hs; [done|].
  destruct (re_findall1 re_date_token (c :: t)) as [|t0 [|t1 ts]]; try done.
  simpl in H5. lia.
Qed.

End CanonicalDate.

(** C7. A token in the canonical form "Month D, YYYY" (three or more ASCII
    letters, one space, one or two digits, a comma, one space, four digits)
    is its own normal form; none of the four range patterns of
    [parse_date_range] matches it; the fallback finds at most one date token
    in it; and [parse_date_range] returns the token itself as the start and
    the empty string as the end. *)
Theorem canonical_date_parses_to_itself (mon d y : str) :
  Forall (fun c => is_alpha c = true) mon -> 3 <= length mon ->
  Forall (fun c => is_digit c = true) d -> 1 <= length d <= 2 ->
  Forall (fun c => is_digit c = true) y -> length y = 4 ->
  normalize_ws (canonical_date mon d y) = canonical_date mon d y
  /\ re_match re_month_days (canonical_date mon d y) = None
  /\ re_match re_two_months (canonical_date mon d y) = None
  /\ re_match re_ymd_range (canonical_date mon d y) = None
  /\ re_match re_dmy_range (canonical_date mon d y) = None
  /\ length (re_findall1 re_date_token (canonical_date mon d y)) <= 1
  /\ parse_date_range (canonical_date mon d y) = (canonical_date mon d y, []).
Proof.
  intros Hmon Hlen Hd Hdlen Hy Hylen.
  split; [by apply canonical_normal|]. by apply canonical_parse.
Qed.

Lemma canonical_date_parses_to_itself_witness :
  parse_date_range "March 6, 2025" = ("March 6, 2025" : str, []).
Proof.
  apply (canonical_date_parses_to_itself "March" "6" "2025").
  - repeat constructor.
  - simpl. lia.
  - repeat constructor.
  - simpl. lia.
  - repeat constructor.
  - reflexivity.
Defined.

(** ** Fetcher *)

Lemma attempt_body_Some r body :
  attempt_body r = Some body <-> accepted r body.
Proof.
  unfold attempt_body, accepted, status_ok, nonempty. split.
  - destruct r as [|resp]; [done|].
    destruct (200 <=? status_code resp)%Z eqn:H1; [|done].
    destruct (status_code resp <? 300)%Z eqn:H2; [|done].
    destruct (text resp) as [|c t] eqn:Ht; [done|]. simpl.
    intros [= <-]. exists resp. rewrite Ht. repeat split; try done; lia.
  - intros (resp & -> & [H1 H2] & Ht & Hne).
    apply Z.leb_le in H1. apply Z.ltb_lt in H2. rewrite H1, H2, Ht.
    by destruct body.
Qed.

Lemma attempt_body_None r :
  attempt_body r = None <-> ~ exists body, accepted r body.
Proof.
  split.
  - intros H [body Hb]. apply attempt_body_Some in Hb. congruence.
  - intros H. destruct (attempt_body r) as [body|] eqn:Hb; [|done].
    exfalso. apply H. exists body. by apply attempt_body_Some.
Qed.

Lemma fetch_loop_all_fail E url attempts : forall w,
  (forall j, j < length attempts ->
     attempt_body (net E (sent w + j) url) = None) ->
  fetch_loop E url attempts w
  = (Ok None, World (sent w + length attempts)
                    (trace w ++ concat (map (failed_attempt url) attempts))).
Proof.
  induction attempts as [|i attempts IH]; intros w Hfail; simpl.
  - unfold ret. destruct w as [n t]; simpl. by rewrite Nat.add_0_r, app_nil_r.
  - unfold bind, http_get at 1. specialize (Hfail 0 ltac:(simpl; lia)) as H0.
    rewrite Nat.add_0_r in H0. rewrite H0. unfold sleep, emit at 1. simpl.
    rewrite IH; simpl.
    + f_equal. f_equal; [lia|]. unfold backoff. by rewrite <- !app_assoc.
    + intros j Hj. specialize (Hfail (S j) ltac:(simpl; lia)).
      by rewrite Nat.add_succ_r in Hfail.
Qed.

Lemma fetch_loop_first_hit E url pre i post body : forall w,
  (forall j, j < length pre ->
     attempt_body (net E (sent w + j) url) = None) ->
  attempt_body (net E (sent w + length pre) url) = Some body ->
  fetch_loop E url (pre ++ i :: post) w
  = (Ok (Some body),
     World (sent w + S (length pre))
           (trace w ++ concat (map (failed_attempt url) pre) ++ [Get url false])).
Proof.
  induction pre as [|i0 pre IH]; intros w Hfail Hhit; simpl.
  - unfold bind, http_get at 1. simpl in Hhit. rewrite Nat.add_0_r in Hhit.
    rewrite Hhit. unfold ret. f_equal. f_equal. lia.
  - unfold bind, http_get at 1. specialize (Hfail 0 ltac:(simpl; lia)) as H0.
    rewrite Nat.add_0_r in H0. rewrite H0. unfold sleep, emit at 1. simpl.
    rewrite IH; simpl.
    + f_equal. f_equal; [lia|]. unfold backoff. by rewrite <- !app_assoc.
    + intros j Hj. specialize (Hfail (S j) ltac:(simpl; lia)).
      by rewrite Nat.add_succ_r in Hfail.
    + simpl in Hhit. by rewrite Nat.add_succ_r in Hhit.
Qed.

(** C8. Let the replies to the requests of one call of [fetch] be those the
    network gives to the requests numbered [sent w], [sent w + 1], ...
    If attempt [i] (counted from 0, below the limit [RETRY]) is the first
    with a status from 200 to 299 and a non-empty body, [fetch] returns that
    body, having slept [SLEEP_BETWEEN * (j + 1)] after each earlier attempt
    [j]; if none of the [RETRY] attempts is accepted, it returns [None],
    having slept after each of them.  A raised request exception counts as a
    failed attempt. *)
Theorem fetch_first_accepted (E : env) (url : str) (w : world) :
  (forall i body,
     i < RETRY ->
     accepted (net E (sent w + i) url) body ->
     (forall j, j < i -> ~ exists b, accepted (net E (sent w + j) url) b) ->
     fetch E url w
     = (Ok (Some body),
        World (sent w + S i)
              (trace w ++ concat (map (failed_attempt url) (seq 0 i))
                       ++ [Get url false])))
  /\ ((forall j, j < RETRY ->
         ~ exists b, accepted (net E (sent w + j) url) b) ->
      fetch E url w
      = (Ok None,
         World (sent w + RETRY)
               (trace w ++ concat (map (failed_attempt url) (seq 0 RETRY))))).
Proof.
  split.
  - intros i body Hi Hacc Hbefore. unfold fetch.
    replace (seq 0 RETRY) with (seq 0 i ++ i :: seq (S i) (RETRY - S i)).
    + rewrite (fetch_loop_first_hit E url (seq 0 i) i _ body);
        rewrite ?length_seq; auto.
      * intros j Hj. apply attempt_body_None. auto.
      * by apply attempt_body_Some.
    + change (i :: seq (S i) (RETRY - S i)) with (seq i (S (RETRY - S i))).
      rewrite <- seq_app. f_equal. lia.
  - intros Hnone. unfold fetch.
    rewrite fetch_loop_all_fail; rewrite ?length_seq; auto.
    intros j Hj. apply attempt_body_None. auto.
Qed.

(** Two refused connections, then a good reply: the third attempt wins. *)
Lemma fetch_first_accepted_witness :
  let E := Env (fun n _ => if n <? 2 then ConnError
                           else Reply (Response 200 "body" None))
               (fun h => h) (fun _ => []) in
  fetch E "u" (World 0 [])
  = (Ok (Some ("body" : str)),
     World 3 [Get "u" false; Sleep (SLEEP_BETWEEN * inject_Z (Z.of_nat 1))%Q;
              Get "u" false; Sleep (SLEEP_BETWEEN * inject_Z (Z.of_nat 2))%Q;
              Get "u" false]).
Proof.
  intros E.
  apply (proj1 (fetch_first_accepted E "u" (World 0 [])) 2 ("body" : str)).
  - unfold RETRY. lia.
  - exists (Response 200 "body" None). simpl.
    repeat split; first [lia | discriminate].
  - intros j Hj [b (resp & Hr & _)]. simpl in Hr.
    destruct j as [|[|j]]; simpl in Hr; [discriminate|discriminate|lia].
Defined.

(** ** The winner lookup never raises *)

Lemma fetch_loop_Ok E url attempts : forall w,
  exists r w', fetch_loop E url attempts w = (Ok r, w').
Proof.
  induction attempts as [|i attempts IH]; intros w; simpl.
  - by eexists _, _.
  - unfold bind at 1, http_get.
    destruct (attempt_body _) as [body|]; [by eexists _, _|].
    unfold bind, sleep, emit. apply IH.
Qed.

Lemma try_extract_winner_Ok E url w :
  exists r w', try_extract_winner_from_results E url w = (Ok r, w').
Proof.
  unfold try_extract_winner_from_results, bind, fetch.
  destruct (fetch_loop_Ok E url (seq 0 RETRY) w) as (r & w' & ->).
  destruct r as [[|c html]|]; by eexists _, _.
Qed.

Lemma resolve_winner_Ok E results_url w :
  exists r w', resolve_winner E results_url w = (Ok r, w').
Proof.
  unfold resolve_winner. destruct results_url as [|c u]; [by eexists _, _|].
  unfold catch.
  destruct (try_extract_winner_Ok E (c :: u) w) as (r & w' & ->). by eexists _, _.
Qed.

(** ** Winner *)

(** C2 (a defect of the code).  The claim promises the empty string or a
    capitalised name of 2 to 4 words.  On a results page whose visible text
    is "Singles champion was crowned today in Rome" the resolver returns
    "was crowned today in": heuristic (a) is searched with [re.IGNORECASE],
    so the classes [[A-Z]] that are to begin each word of the name accept
    lower-case letters, and four words of running text pass for a name.  On
    "Champion: Sinner won" heuristic (b), which has no test on the number of
    words, returns the single word "Sinner". *)
Theorem winner_from_running_text :
  try_extract_winner_from_results crowned_page "r" (World 0 [])
  = (Ok ("was crowned today in" : str), World 1 [Get "r" false])
  /\ ~ claimed_winner "was crowned today in"
  /\ winner_from_text "Champion: Sinner won" = "Sinner"
  /\ ~ claimed_winner "Sinner".
Proof.
  split; [vm_compute; reflexivity|]. split; [|split; [vm_compute; reflexivity|]].
  - intros [H|[(c & s & Hc & Hup) _]]; [discriminate H|].
    injection Hc as <- _. vm_compute in Hup. discriminate.
  - intros [H|[_ [H _]]]; [discriminate H|]. vm_compute in H. lia.
Qed.

(** ** Deduplicator *)

Lemma dedupe_fold rows : forall out seen,
  (forall k, k ∈ seen <-> k ∈ (row_key <$> out)) ->
  NoDup (row_key <$> out) ->
  exists new seen',
    fold_left dedupe_step rows (out, seen) = (out ++ new, seen')
    /\ new `sublist_of` rows
    /\ NoDup (row_key <$> (out ++ new))
    /\ (forall pre r post,
          rows = pre ++ r :: post -> row_key r ∉ seen ->
          row_key r ∉ (row_key <$> pre) -> r ∈ new)
    /\ (forall r, r ∈ new ->
          exists pre post,
            rows = pre ++ r :: post /\ (row_key r ∉ seen)
            /\ row_key r ∉ (row_key <$> pre)).
Proof.
  induction rows as [|r rows IH]; intros out seen Hseen Hnd; simpl.
  - exists [], seen. rewrite app_nil_r. repeat split; auto using sublist_nil.
    + intros [|??] ???; discriminate.
    + intros r Hr. by apply elem_of_nil in Hr.
  - unfold dedupe_step at 2. simpl. destruct (decide (row_key r ∈ seen)) as [Hin|Hin].
    + destruct (IH out seen Hseen Hnd) as (new & seen' & -> & Hsub & Hnd' & Hfirst & Hkept).
      exists new, seen'. repeat split; auto using sublist_cons.
      * intros [|x pre] y post [= ? ?] Hy Hpre; subst; [done|].
        apply (Hfirst pre y post); auto.
        intros H. apply Hpre. rewrite fmap_cons. apply elem_of_cons; by right.
      * intros y Hy. destruct (Hkept y Hy) as (pre & post & -> & Hns & Hpre).
        exists (r :: pre), post. repeat split; auto.
        rewrite fmap_cons. intros [Heq|H]%elem_of_cons; [|done].
        apply Hns. by rewrite Heq.
    + destruct (IH (out ++ [r]) (seen ∪ {[row_key r]})) as
        (new & seen' & -> & Hsub & Hnd' & Hfirst & Hkept).
      * intros k. rewrite fmap_app, elem_of_app, elem_of_union, elem_of_singleton.
        simpl. rewrite list_elem_of_singleton. by rewrite Hseen.
      * rewrite fmap_app. apply NoDup_app. repeat split; auto.
        -- intros k Hk ->%list_elem_of_singleton. by apply Hin, Hseen.
        -- apply NoDup_singleton.
      * exists (r :: new), seen'. rewrite <- app_assoc in *. simpl in *.
        repeat split; auto using sublist_skip.
        -- intros [|x pre] y post [= ? ?] Hy Hpre; subst; [by left|].
           right. apply (Hfirst pre y post); auto.
           ++ rewrite elem_of_union, elem_of_singleton. intros [?|Heq]; [done|].
              apply Hpre. rewrite fmap_cons, Heq. by left.
           ++ intros H. apply Hpre. rewrite fmap_cons. by right.
        -- intros y [->|Hy]%elem_of_cons.
           ++ exists [], rows. repeat split; auto. rewrite fmap_nil. apply not_elem_of_nil.
           ++ destruct (Hkept y Hy) as (pre & post & -> & Hns & Hpre).
              exists (r :: pre), post.
              rewrite elem_of_union, elem_of_singleton in Hns.
              repeat split; auto.
              rewrite fmap_cons. intros [Heq|H]%elem_of_cons; auto.
Qed.

Lemma dedupe_rows_sublist rows : dedupe_rows rows `sublist_of` rows.
Proof.
  unfold dedupe_rows.
  destruct (dedupe_fold rows [] ∅) as (new & seen' & -> & Hsub & _); [| |done].
  - intros k. rewrite fmap_nil. split; [by intros ?%not_elem_of_empty|by intros ?%not_elem_of_nil].
  - rewrite fmap_nil. apply NoDup_nil_2.
Qed.

(** C4. The output of [dedupe_rows] is no longer than its input and keeps
    the input's order; no two output records share the key [(name, location,
    start_date, end_date)]; the first record of the input with a given key is
    in the output, and every output record is such a first record. *)
Theorem dedupe_rows_first_occurrences (rows : list row) :
  length (dedupe_rows rows) <= length rows
  /\ dedupe_rows rows `sublist_of` rows
  /\ NoDup (row_key <$> dedupe_rows rows)
  /\ (forall pre r post,
        rows = pre ++ r :: post -> row_key r ∉ (row_key <$> pre) ->
        r ∈ dedupe_rows rows)
  /\ (forall r, r ∈ dedupe_rows rows ->
        exists pre post,
          rows = pre ++ r :: post /\ row_key r ∉ (row_key <$> pre)).
Proof.
  unfold dedupe_rows.
  destruct (dedupe_fold rows [] ∅) as (new & seen' & -> & Hsub & Hnd & Hfirst & Hkept).
  - intros k. rewrite fmap_nil. split; [by intros ?%not_elem_of_empty|by intros ?%not_elem_of_nil].
  - rewrite fmap_nil. apply NoDup_nil_2.
  - simpl in *. repeat split; auto using sublist_length.
    + intros pre r post Hrows Hpre. eapply Hfirst; eauto. apply not_elem_of_empty.
    + intros r Hr. destruct (Hkept r Hr) as (pre & post & ? & _ & ?). eauto.
Qed.

Lemma dedupe_rows_first_occurrences_witness :
  dedupe_rows sample_rows = take 2 sample_rows
  /\ forall r, r ∈ take 2 sample_rows -> r ∈ dedupe_rows sample_rows.
Proof.
  split; [vm_compute; reflexivity|].
  intros r Hr.
  destruct (dedupe_rows_first_occurrences sample_rows) as (_ & _ & _ & Hfirst & _).
  unfold sample_rows in Hr. simpl in Hr.
  apply elem_of_cons in Hr as [->|Hr].
  - eapply (Hfirst []); [reflexivity|]. apply not_elem_of_nil.
  - apply list_elem_of_singleton in Hr as ->.
    eapply (Hfirst [_]); [reflexivity|].
    intros [H|H]%elem_of_cons; [discriminate H|by apply elem_of_nil in H].
Defined.

(** ** Effects: inversion of [bind] *)

Lemma bind_Ok_inv {A B} (m : M A) (f : A -> M B) w b w' :
  bind m f w = (Ok b, w') ->
  exists a w1, m w = (Ok a, w1) /\ f a w1 = (Ok b, w').
Proof.
  unfold bind. destruct (m w) as [[a|e] w1]; [eauto|discriminate].
Qed.

Lemma bind_Ok {A B} (m : M A) (f : A -> M B) w a w1 :
  m w = (Ok a, w1) -> bind m f w = f a w1.
Proof. unfold bind. by intros ->. Qed.

Lemma bind_Raise {A B} (m : M A) (f : A -> M B) w e w1 :
  m w = (Raise e, w1) -> bind m f w = (Raise e, w1).
Proof. unfold bind. by intros ->. Qed.

(** ** Surface *)

Lemma matches_lit_i s : forall w g g',
  matches (lit_i s) w g g' -> lower w = lower s /\ g' = g.
Proof.
  induction s as [|c s IH]; intros w g g' H.
  - inversion H; subst. done.
  - destruct s as [|c' s].
    + apply matches_chr_inv in H as (x & -> & Hx & ->).
      apply bool_decide_eq_true in Hx. simpl. by rewrite Hx.
    + change (lit_i (c :: c' :: s)) with (Seq (chr_i c) (lit_i (c' :: s))) in H.
      apply matches_seq_inv in H as (w1 & w2 & g1 & -> & H1 & H2).
      apply matches_chr_inv in H1 as (x & -> & Hx & ->).
      apply IH in H2 as [Hw ->]. apply bool_decide_eq_true in Hx.
      split; [|done]. simpl in *. by rewrite Hx, Hw.
Qed.

(** A character whose lower-case form is one of a-z is an ASCII letter. *)
Lemma lower_char_az c :
  is_az (lower_char c) = true ->
  is_cased c = true /\ upper_char c = upper_char (lower_char c)
  /\ lower_char (lower_char c) = lower_char c.
Proof.
  destruct c as [[] [] [] [] [] [] [] []]; vm_compute; intros H;
    first [discriminate H | repeat split].
Qed.

Lemma title_from_cased w :
  Forall (fun c => is_az (lower_char c) = true) w ->
  title_from true w = lower w.
Proof.
  induction 1 as [|c w Hc _ IH]; simpl; [done|].
  apply lower_char_az in Hc as (-> & _ & _). by rewrite IH.
Qed.

Lemma lower_idemp_az w :
  Forall (fun c => is_az (lower_char c) = true) w -> lower (lower w) = lower w.
Proof.
  induction 1 as [|c w Hc _ IH]; simpl; [done|].
  apply lower_char_az in Hc as (_ & _ & ->). by rewrite IH.
Qed.

(** The title-cased form of an ASCII word depends only on the word's
    lower-case form. *)
Lemma title_of_lower w :
  Forall (fun c => is_az (lower_char c) = true) w ->
  title w = title (lower w).
Proof.
  intros H. destruct H as [|c w Hc Hw]; [done|].
  unfold title. simpl.
  assert (Hlw : Forall (fun c => is_az (lower_char c) = true) (lower w)).
  { clear Hc. induction Hw as [|x w Hx _ IH]; simpl; constructor; auto.
    by destruct (lower_char_az x Hx) as (_ & _ & ->). }
  destruct (lower_char_az c Hc) as (Hcased & Hup & Hlow).
  destruct (lower_char_az (lower_char c)) as (Hcased' & _ & _); [by rewrite Hlow|].
  rewrite Hcased, Hcased', Hup. f_equal.
  rewrite !title_from_cased; auto. by rewrite lower_idemp_az.
Qed.

Lemma lower_az_Forall w s :
  lower w = s -> forallb is_az s = true ->
  Forall (fun c => is_az (lower_char c) = true) w.
Proof.
  intros <-. induction w as [|c w IH]; simpl; [constructor|].
  intros [Hc Hw]%andb_prop. constructor; auto.
Qed.

(** The text captured by the surface pattern, title-cased. *)
Lemma title_of_surface_word w g g' :
  matches re_surface w g g' ->
  exists u, g' !! 1 = Some u /\ title u ∈ known_surfaces.
Proof.
  unfold re_surface. cbn [alt]. intros H.
  apply matches_grp_inv in H as (g1 & H & ->).
  exists w. split; [by rewrite lookup_insert_eq|].
  assert (Hword : forall s : str, matches (lit_i s) w g g1 ->
            forallb is_az (lower s) = true -> title w = title (lower s)).
  { intros s Hs Haz. apply matches_lit_i in Hs as [Hs _].
    rewrite title_of_lower; [by rewrite Hs|]. by eapply lower_az_Forall. }
  unfold known_surfaces.
  repeat apply matches_alt_inv in H as [H|H];
    rewrite (Hword _ H eq_refl); vm_compute; set_solver.
Qed.

Lemma surface_text_known c : known_surface (try_extract_surface_text c).1.
Proof.
  unfold try_extract_surface_text. simpl.
  destruct (re_search re_surface _) as [m|] eqn:Hm; [|by right].
  apply re_search_sound in Hm as (pre & _ & Hm).
  apply title_of_surface_word in Hm as (u & Hu & Hin).
  left. unfold group. by rewrite Hu.
Qed.

(** ** JSON extractor *)

Section JsonRows.

Variables (E : env) (url label : str) (data : json).

(** What every record of the JSON extractor satisfies: it comes from an
    entry of the payload and its name is not empty. *)
Let good (x : row) : Prop := built_from_entry label url data x /\ name x <> [].

Lemma json_tournament_rows t st w st' w' :
  entry_of data t ->
  json_tournament E url label t st w = (Ok st', w') ->
  Forall good st.1 -> Forall good st'.1.
Proof.
  unfold json_tournament. intros Ht H Hst.
  apply bind_Ok_inv in H as (r & w1 & Hr & H). unfold lift in Hr.
  injection Hr as Hr <-.
  destruct (decide (row_key r ∈ st.2)); [by injection H as <- _|].
  destruct (name r) as [|c nm] eqn:Hname; simpl in H; [by injection H as <- _|].
  apply bind_Ok_inv in H as (wn & w2 & _ & H). injection H as <- _. simpl.
  apply Forall_app. split; [done|]. apply Forall_singleton. split.
  - by exists t, r, wn.
  - simpl. by rewrite Hname.
Qed.

Lemma json_tournaments_rows ts : forall st w st' w',
  Forall (entry_of data) ts ->
  json_tournaments E url label ts st w = (Ok st', w') ->
  Forall good st.1 -> Forall good st'.1.
Proof.
  induction ts as [|t ts IH]; simpl; intros st w st' w' Hts H Hst.
  - by injection H as <- _.
  - apply Forall_cons in Hts as [Ht Hts].
    apply bind_Ok_inv in H as (st1 & w1 & H1 & H).
    eauto using json_tournament_rows.
Qed.

Lemma json_dates_rows ds : forall st w st' w',
  Forall (fun d => forall ts, py_iter (tournaments_of d) = Ok ts ->
                             Forall (entry_of data) ts) ds ->
  json_dates E url label ds st w = (Ok st', w') ->
  Forall good st.1 -> Forall good st'.1.
Proof.
  induction ds as [|d ds IH]; simpl; intros st w st' w' Hds H Hst.
  - by injection H as <- _.
  - apply Forall_cons in Hds as [Hd Hds].
    apply bind_Ok_inv in H as (ts & w1 & Hts & H).
    injection Hts as Hts <-.
    apply bind_Ok_inv in H as (st1 & w2 & H1 & H).
    eapply IH; [exact Hds|exact H|].
    eapply json_tournaments_rows; [|exact H1|exact Hst]. by apply Hd.
Qed.

Lemma dedupe_rows_Forall (P : row -> Prop) rows :
  Forall P rows -> Forall P (dedupe_rows rows).
Proof.
  rewrite !Forall_forall. intros H x Hx. apply H.
  eapply elem_of_sublist; [exact Hx|apply dedupe_rows_sublist].
Qed.

Lemma rows_of_json_rows w rows w' :
  rows_of_json E url label data w = (Ok rows, w') -> Forall good rows.
Proof.
  unfold rows_of_json. intros H.
  apply bind_Ok_inv in H as (ds & w2 & Hds & H). injection Hds as Hds <-.
  apply bind_Ok_inv in H as (st & w3 & Hst & H). injection H as <- _.
  apply dedupe_rows_Forall. eapply json_dates_rows; [|exact Hst|by constructor].
  apply Forall_forall. intros d Hd ts Hts. apply Forall_forall. intros t Ht.
  by exists ds, d, ts.
Qed.

End JsonRows.

Lemma parse_calendar_json_rows E url label w rows w' :
  parse_calendar_json E url label w = (Ok rows, w') ->
  rows = [] \/
  exists resp data,
    net E (sent w) url = Reply resp /\ json_body resp = Some data /\
    Forall (fun x => built_from_entry label url data x /\ name x <> []) rows.
Proof.
  unfold parse_calendar_json. intros H.
  apply bind_Ok_inv in H as (r & w1 & Hr & H).
  injection Hr as Hr <-.
  destruct r as [|resp]; [left; by injection H as <- _|].
  destruct (status_ok resp); [|left; by injection H as <- _].
  destruct (json_body resp) as [data|] eqn:Hbody; [|left; by injection H as <- _].
  right. exists resp, data. eauto using rows_of_json_rows.
Qed.

Lemma tournament_fields_name t label url r :
  tournament_fields t label url = Ok r ->
  exists v, py_get t "Name" (JStr []) = Ok v
            /\ normalize_ws_value v = Ok (name r).
Proof.
  unfold tournament_fields, res_bind. intros H.
  repeat match type of H with
  | match ?x with _ => _ end = _ =>
      let E := fresh "E" in destruct x eqn:E; [|discriminate H]
  end.
  injection H as <-. simpl. eauto.
Qed.

(** C10. Every record that [parse_calendar_json] returns has a non-empty
    name.  An entry whose normalised "Name" field is empty adds no record:
    when its other fields can be read it leaves the rows and the seen keys
    as they were and sends no request (otherwise reading them raises). *)
Theorem json_rows_have_names (E : env) (url label : str) :
  (forall w rows w',
     parse_calendar_json E url label w = (Ok rows, w') ->
     Forall (fun r => name r <> []) rows)
  /\ (forall t v st w,
        py_get t "Name" (JStr []) = Ok v -> normalize_ws_value v = Ok [] ->
        (forall r, tournament_fields t label url = Ok r ->
           json_tournament E url label t st w = (Ok st, w))
        /\ (forall e, tournament_fields t label url = Raise e ->
              json_tournament E url label t st w = (Raise e, w))).
Proof.
  split.
  - intros w rows w' H.
    apply parse_calendar_json_rows in H as [->|(resp & data & _ & _ & H)]; [done|].
    eapply Forall_impl; [exact H|]. by intros r [_ ?].
  - intros t v st w Hv Hnorm. split.
    + intros r Hr. unfold json_tournament, bind, lift. rewrite Hr.
      apply tournament_fields_name in Hr as (v' & Hv' & Hname).
      rewrite Hv in Hv'. injection Hv' as <-.
      rewrite Hnorm in Hname. injection Hname as Hname.
      destruct (decide (row_key r ∈ st.2)); [done|]. by rewrite <- Hname.
    + intros e He. unfold json_tournament, bind, lift. by rewrite He.
Qed.

Lemma json_rows_have_names_witness :
  exists rows w',
    parse_calendar_json sample_env "u" "ATP Tour" (World 0 []) = (Ok rows, w')
    /\ length rows = 1
    /\ Forall (fun r => name r <> []) rows.
Proof.
  eexists _, _. split; [vm_compute; reflexivity|]. split; [reflexivity|].
  eapply (proj1 (json_rows_have_names sample_env "u" "ATP Tour")
            (World 0 [])).
  vm_compute. reflexivity.
Defined.

(** ** HTML extractor *)

Section HtmlRows.

Variables (E : env) (url label : str).

Let good (x : row) : Prop := known_surface (surface x).

Lemma html_container_rows c st w :
  exists st' w',
    html_container E url label c st w = (Ok st', w')
    /\ (Forall good st.1 -> Forall good st'.1).
Proof.
  unfold html_container.
  destruct (negb (nonempty _)); [by eexists _, _|].
  destruct (negb (contains_char _ _)); [by eexists _, _|].
  destruct (negb (bool_decide _)); [by eexists _, _|].
  destruct (find_name_link _) as [[nm name_a]|]; [|by eexists _, _].
  destruct (split_location_and_date _) as [loc formatted].
  destruct (parse_date_range formatted) as [sd ed].
  pose proof (surface_text_known c) as Hsurf.
  destruct (try_extract_surface_text c) as [surf io]. simpl in Hsurf.
  destruct (decide _); [by eexists _, _|].
  unfold bind.
  destruct (resolve_winner_Ok E (default [] (find_results_link (c_anchors c))) w)
    as (wn & w' & ->).
  eexists _, _. split; [reflexivity|]. simpl. intros Hst.
  apply Forall_app. split; [done|]. by apply Forall_singleton.
Qed.

Lemma html_containers_rows cs : forall st w,
  exists st' w',
    html_containers E url label cs st w = (Ok st', w')
    /\ (Forall good st.1 -> Forall good st'.1).
Proof.
  induction cs as [|c cs IH]; intros st w; simpl.
  - by eexists _, _.
  - unfold bind.
    destruct (html_container_rows c st w) as (st1 & w1 & -> & H1).
    destruct (IH st1 w1) as (st2 & w2 & -> & H2).
    eexists _, _. split; [reflexivity|]. auto.
Qed.

Lemma parse_calendar_like_rows w :
  exists rows w',
    parse_calendar_like E url label w = (Ok rows, w') /\ Forall good rows.
Proof.
  unfold parse_calendar_like, bind, fetch.
  destruct (fetch_loop_Ok E url (seq 0 RETRY) w) as (r & w1 & ->).
  destruct r as [[|ch html]|]; try by (eexists _, _; split; [reflexivity|constructor]).
  destruct (html_containers_rows (page_containers E (ch :: html)) ([], ∅) w1)
    as (st & w2 & -> & Hst).
  eexists _, _. split; [reflexivity|].
  apply dedupe_rows_Forall, Hst. constructor.
Qed.

End HtmlRows.

(** One tournament block of a calendar page gives one record; its second
    copy is dropped by the key test, so the results page is fetched once. *)
Example parse_calendar_like_sample :
  parse_calendar_like sample_site ATP_TOUR_URL "ATP Tour" (World 0 [])
  = (Ok [Row "Indian Wells Open" "Indian Wells" "March 6, 2025"
             "March 16, 2025" "Hard" "" "Jannik Sinner"
             "https://www.atptour.com/en/scores/iw/results"
             "ATP Tour" ATP_TOUR_URL],
     World 2 [Get ATP_TOUR_URL false;
              Get "https://www.atptour.com/en/scores/iw/results" false]).
Proof. vm_compute. reflexivity. Qed.

Lemma tournament_fields_surface t label url r :
  tournament_fields t label url = Ok r ->
  exists v, py_get t "Surface" (JStr []) = Ok v
            /\ normalize_ws_value v = Ok (surface r).
Proof.
  unfold tournament_fields, res_bind. intros H.
  repeat match type of H with
  | match ?x with _ => _ end = _ =>
      let E := fresh "E" in destruct x eqn:E; [|discriminate H]
  end.
  injection H as <-. simpl. eauto.
Qed.

(** C3 (as the code has it, for texts without a character above U+00FF,
    which are the strings of this development).  On the HTML path, for a
    page whose text has no character above U+00FF, every record's surface
    is one of Hard, Clay, Grass, Carpet, Acrylic, Synthetic, or empty; the
    HTML path always returns.  On the JSON path a record's surface is the
    whitespace-normalised "Surface" field of a tournament entry of the
    payload, whatever that text is.  Nothing is said of a page with a
    character above U+00FF: there [re.IGNORECASE] also accepts U+017F for s
    and U+0130 or U+0131 for i, and the title-cased match need not be one
    of the six words. *)
Theorem surface_of_rows (E : env) (url label : str) (w : world) :
  (exists rows w',
     parse_calendar_like E url label w = (Ok rows, w')
     /\ Forall (fun r => known_surface (surface r)) rows)
  /\ (forall rows w',
        parse_calendar_json E url label w = (Ok rows, w') ->
        Forall (fun x =>
                  exists resp data t v,
                    net E (sent w) url = Reply resp
                    /\ json_body resp = Some data
                    /\ entry_of data t
                    /\ py_get t "Surface" (JStr []) = Ok v
                    /\ normalize_ws_value v = Ok (surface x)) rows).
Proof.
  split; [apply parse_calendar_like_rows|].
  intros rows w' H.
  apply parse_calendar_json_rows in H as [->|(resp & data & Hnet & Hbody & H)];
    [constructor|].
  eapply Forall_impl; [exact H|]. intros x [(t & r & wn & Ht & Hr & ->) _].
  apply tournament_fields_surface in Hr as (v & Hv & Hs).
  exists resp, data, t, v. by repeat split.
Qed.

Lemma surface_of_rows_witness :
  parse_calendar_json sample_env "u" "ATP Tour" (World 0 [])
  = (Ok [Row "Foo Open" "Paris, France" "December 27, 2024" "January 5, 2025"
             "Red Clay" [] [] [] "ATP Tour" "u"],
     World 1 [Get "u" true])
  /\ Forall (fun x =>
               exists resp data t v,
                 net sample_env 0 "u" = Reply resp
                 /\ json_body resp = Some data
                 /\ entry_of data t
                 /\ py_get t "Surface" (JStr []) = Ok v
                 /\ normalize_ws_value v = Ok (surface x))
       [Row "Foo Open" "Paris, France" "December 27, 2024" "January 5, 2025"
            "Red Clay" [] [] [] "ATP Tour" "u"].
Proof.
  split; [vm_compute; reflexivity|].
  apply (proj2 (surface_of_rows sample_env "u" "ATP Tour" (World 0 []))
           _ (World 1 [Get "u" true])).
  vm_compute. reflexivity.
Defined.

(** C3 as stated fails on the JSON path: the surface "Red Clay" of the
    payload goes through unchanged. *)
Lemma json_surface_not_in_known_set :
  exists rows w',
    parse_calendar_json sample_env "u" "ATP Tour" (World 0 []) = (Ok rows, w')
    /\ ~ Forall (fun r => known_surface (surface r)) rows.
Proof.
  eexists _, _. split; [vm_compute; reflexivity|].
  intros H. apply Forall_cons in H as [[Hin| Hnil] _].
  - unfold known_surfaces in Hin. simpl in Hin.
    repeat (apply elem_of_cons in Hin as [Hin|Hin]; [discriminate Hin|]).
    by apply elem_of_nil in Hin.
  - discriminate Hnil.
Qed.

(** ** Orchestrator *)

(** C9 (a defect of the code).  The claim promises an empty record list, and
    then the HTML path, for every payload whose date entries list no
    tournament.  For the payload [{"TournamentDates": [{"Tournaments":
    null}]}] the loop [for t in tournaments] iterates [None]: the
    [TypeError] leaves [parse_calendar_json], the expression that picks the
    rows passes it on without trying the calendar page, and [main] stops
    after its first request, before it has written a file. *)
Theorem null_tournaments_stop_the_run :
  parse_calendar_json null_tournaments_site ATP_TOUR_JSON "ATP Tour" (World 0 [])
  = (Raise TypeError, World 1 [Get ATP_TOUR_JSON true])
  /\ json_or_html null_tournaments_site ATP_TOUR_JSON ATP_TOUR_URL "ATP Tour"
       (World 0 [])
     = (Raise TypeError, World 1 [Get ATP_TOUR_JSON true])
  /\ main null_tournaments_site (World 0 [])
     = (Raise TypeError, World 1 [Get ATP_TOUR_JSON true]).
Proof. repeat split; vm_compute; reflexivity. Qed.
